(** * have: type algebra, scope stack and top-level ordering

    A shallow embedding of the front-end core of the [have] compiler
    (package [have]: [ast.go], the identifier stack, and the top-level
    statement sort exercised by [package_test.go]), with the properties
    of its name resolution and type algebra.

    Go pointers to type declarations are addresses into a declaration
    store, because a [CustomType] points back to its [TypeDecl] and a
    program may build alias chains that loop.  Go maps are [gmap]s, Go
    slices are lists with the innermost element last. *)

From stdpp Require Import gmap strings list fin_maps relations.
From Stdlib Require Import ZArith.

Local Open Scope Z_scope.

(** ** Objects and kinds ([ast.go]) *)

Module Ast.

(** [type ObjectType int], an [iota + 1] enumeration. *)
Inductive ObjectType := OBJECT_VAR | OBJECT_TYPE | OBJECT_PACKAGE | OBJECT_LABEL.

Definition ObjectType_value (o : ObjectType) : Z :=
  match o with
  | OBJECT_VAR => 1
  | OBJECT_TYPE => 2
  | OBJECT_PACKAGE => 3
  | OBJECT_LABEL => 4
  end.

(** [type Kind int], an [iota + 1] enumeration. *)
Inductive Kind :=
  | KIND_SIMPLE | KIND_ARRAY | KIND_SLICE | KIND_MAP | KIND_POINTER
  | KIND_CUSTOM | KIND_STRUCT | KIND_TUPLE | KIND_FUNC | KIND_UNKNOWN.

Definition Kind_value (k : Kind) : Z :=
  match k with
  | KIND_SIMPLE => 1 | KIND_ARRAY => 2 | KIND_SLICE => 3 | KIND_MAP => 4
  | KIND_POINTER => 5 | KIND_CUSTOM => 6 | KIND_STRUCT => 7
  | KIND_TUPLE => 8 | KIND_FUNC => 9 | KIND_UNKNOWN => 10
  end.

#[global] Instance Kind_eq_dec : EqDecision Kind.
Proof. solve_decision. Defined.

#[global] Instance ObjectType_eq_dec : EqDecision ObjectType.
Proof. solve_decision. Defined.

(** An address of a [TypeDecl] in the declaration store ([*TypeDecl]).
    An address that the store does not map stands for a nil pointer. *)
Definition loc := nat.

(** [type SimpleTypeID int]. *)
Definition SimpleTypeID := Z.

Definition SIMPLE_TYPE_INT : SimpleTypeID := 1.
Definition SIMPLE_TYPE_STRING : SimpleTypeID := 2.
Definition SIMPLE_TYPE_BOOL : SimpleTypeID := 3.

(** The implementations of the [Type] interface.  A value of this type
    is a non-nil interface value; where the source lets the interface be
    nil and tests it ([TypeDecl.AliasedType]) the field is an option.
    [StructType.Members] is held as the list of the map's entries, and
    [Methods] as the names of the method declarations: no operation
    below looks inside a method. *)
#[warnings="-register-all"]
Inductive Type_ :=
  | SimpleType (ID : SimpleTypeID)
  | ArrayType (Size : Z) (Of : Type_)
  | SliceType (Of : Type_)
  | MapType (By Of : Type_)
  | FuncType (Args Results : list Type_)
  | PointerType (To : Type_)
  | TupleType (Members : list Type_)
  | StructType (Members : list (string * Type_)) (Keys : list string)
               (Methods : list string) (Name : string)
  | CustomType (Name Package : string) (Decl : loc)
  | UnknownType.

(** [TypeDecl]: the embedded [stmt] contributes the position; the alias
    is nil for a declaration that is itself a simple type. *)
Record TypeDecl := mkTypeDecl {
  td_pos : Z;
  td_name : string;
  AliasedType : option Type_
}.

(** The declaration store: the [TypeDecl]s allocated so far. *)
Abbreviation declStore := (gmap loc TypeDecl).

(** *** [Kind()] *)
Definition KindOf (t : Type_) : Kind :=
  match t with
  | SimpleType _ => KIND_SIMPLE
  | ArrayType _ _ => KIND_ARRAY
  | SliceType _ => KIND_SLICE
  | MapType _ _ => KIND_MAP
  | FuncType _ _ => KIND_FUNC
  | PointerType _ => KIND_POINTER
  | TupleType _ => KIND_TUPLE
  | StructType _ _ _ _ => KIND_STRUCT
  | CustomType _ _ _ => KIND_CUSTOM
  | UnknownType => KIND_UNKNOWN
  end.

(** *** [Known()]

    Each loop of the source returns false at the first member that is
    not known and true otherwise, which is [forallb]. *)
Fixpoint Known (t : Type_) : bool :=
  match t with
  | SimpleType _ => true
  | ArrayType _ elem => Known elem
  | SliceType elem => Known elem
  | MapType key elem => Known key && Known elem
  | FuncType args results => forallb Known args && forallb Known results
  | PointerType to => Known to
  | TupleType members => forallb Known members
  | StructType members _ _ _ => forallb (fun m => Known (snd m)) members
  | CustomType _ _ _ => true
  | UnknownType => false
  end.

(** Induction over a type together with all the types nested in its
    member lists. *)
Section Type_nested_ind.
Variable P : Type_ -> Prop.
Hypothesis HSimple : forall id, P (SimpleType id).
Hypothesis HArray : forall n t, P t -> P (ArrayType n t).
Hypothesis HSlice : forall t, P t -> P (SliceType t).
Hypothesis HMap : forall k v, P k -> P v -> P (MapType k v).
Hypothesis HFunc : forall args results,
  Forall P args -> Forall P results -> P (FuncType args results).
Hypothesis HPointer : forall t, P t -> P (PointerType t).
Hypothesis HTuple : forall members, Forall P members -> P (TupleType members).
Hypothesis HStruct : forall members keys methods name,
  Forall (fun m => P (snd m)) members ->
  P (StructType members keys methods name).
Hypothesis HCustom : forall name pkg decl, P (CustomType name pkg decl).
Hypothesis HUnknown : P UnknownType.

Fixpoint Type_nested_ind (t : Type_) : P t :=
  let all :=
    fix all (l : list Type_) : Forall P l :=
      match l with
      | [] => Forall_nil_2 P
      | x :: l' => Forall_cons_2 P x l' (Type_nested_ind x) (all l')
      end in
  match t with
  | SimpleType id => HSimple id
  | ArrayType n elem => HArray n elem (Type_nested_ind elem)
  | SliceType elem => HSlice elem (Type_nested_ind elem)
  | MapType k v => HMap k v (Type_nested_ind k) (Type_nested_ind v)
  | FuncType args results => HFunc args results (all args) (all results)
  | PointerType to => HPointer to (Type_nested_ind to)
  | TupleType members => HTuple members (all members)
  | StructType members keys methods name =>
      HStruct members keys methods name
        ((fix fields (l : list (string * Type_))
            : Forall (fun m => P (snd m)) l :=
            match l with
            | [] => Forall_nil_2 _
            | m :: l' =>
                Forall_cons_2 (fun m => P (snd m)) m l'
                  (Type_nested_ind (snd m)) (fields l')
            end) members)
  | CustomType name pkg decl => HCustom name pkg decl
  | UnknownType => HUnknown
  end.
End Type_nested_ind.

(** *** Where an Unknown occurs

    [ContainsUnknown under t]: an [UnknownType] occurs in the structure
    of [t].  The parameter [under] says what lies beneath a named type:
    [under d] is the type that the declaration at address [d] aliases,
    if the occurrence relation is to look through it. *)
Inductive ContainsUnknown (under : loc -> option Type_) : Type_ -> Prop :=
  | cu_unknown : ContainsUnknown under UnknownType
  | cu_array n t :
      ContainsUnknown under t -> ContainsUnknown under (ArrayType n t)
  | cu_slice t :
      ContainsUnknown under t -> ContainsUnknown under (SliceType t)
  | cu_map_key k v :
      ContainsUnknown under k -> ContainsUnknown under (MapType k v)
  | cu_map_value k v :
      ContainsUnknown under v -> ContainsUnknown under (MapType k v)
  | cu_func_arg args results t :
      t ∈ args -> ContainsUnknown under t ->
      ContainsUnknown under (FuncType args results)
  | cu_func_result args results t :
      t ∈ results -> ContainsUnknown under t ->
      ContainsUnknown under (FuncType args results)
  | cu_pointer t :
      ContainsUnknown under t -> ContainsUnknown under (PointerType t)
  | cu_tuple members t :
      t ∈ members -> ContainsUnknown under t ->
      ContainsUnknown under (TupleType members)
  | cu_struct members keys methods name m :
      m ∈ members -> ContainsUnknown under (snd m) ->
      ContainsUnknown under (StructType members keys methods name)
  | cu_custom name pkg decl t :
      under decl = Some t -> ContainsUnknown under t ->
      ContainsUnknown under (CustomType name pkg decl).

(** Beneath a named type lies the aliased type of its declaration. *)
Definition aliasedTypeAt (h : declStore) (d : loc) : option Type_ :=
  h !! d ≫= AliasedType.

(** A named type taken as opaque: nothing lies beneath it. *)
Definition opaqueNames : loc -> option Type_ := fun _ => None.

(** *** Simple type ids and their names *)

Definition simpleTypeAsStr : gmap SimpleTypeID string :=
  {[ SIMPLE_TYPE_INT := "int"%string;
     SIMPLE_TYPE_STRING := "string"%string;
     SIMPLE_TYPE_BOOL := "bool"%string ]}.

(** [initSimpleTypeIDs] inverts [simpleTypeAsStr]; the names are
    pairwise distinct, so the order of the iteration does not matter. *)
Definition initSimpleTypeIDs : gmap string SimpleTypeID :=
  map_fold (fun k v acc => <[v := k]> acc) ∅ simpleTypeAsStr.

(** The table as [init] leaves it. *)
Definition simpleTypeStrToID : gmap string SimpleTypeID :=
  Eval vm_compute in initSimpleTypeIDs.

(** Indexing a Go map at an absent key yields the zero value. *)
Definition simpleTypeID_of (name : string) : SimpleTypeID :=
  default 0 (simpleTypeStrToID !! name).

(** *** Variables, labels, packages, objects *)

(** [Variable]: [Type] may be nil before inference; the initialiser
    expression is kept as its position. *)
Record Variable_ := mkVariable {
  var_name : string;
  var_Type : option Type_;
  var_Init : option Z
}.

(** [LabelStmt]: the branchable statement is kept as its position. *)
Record LabelStmt := mkLabelStmt {
  lbl_pos : Z;
  lbl_name : string;
  Branchable : option Z
}.

Record Package := mkPackage { pkg_name : string }.

(** The implementations of the [Object] interface.  Type declarations
    are referred to by address, the others by their contents. *)
Inductive Object :=
  | ObjVariable (v : Variable_)
  | ObjLabelStmt (l : LabelStmt)
  | ObjTypeDecl (d : loc)
  | ObjPackage (p : Package).

(** [Name()]; [None] is the dereference of a nil [*TypeDecl]. *)
Definition Name (h : declStore) (o : Object) : option string :=
  match o with
  | ObjVariable v => Some (var_name v)
  | ObjLabelStmt l => Some (lbl_name l)
  | ObjTypeDecl d => td_name <$> h !! d
  | ObjPackage p => Some (pkg_name p)
  end.

(** [ObjectType()]: a constant for each implementation. *)
Definition ObjectTypeOf (o : Object) : ObjectType :=
  match o with
  | ObjVariable _ => OBJECT_VAR
  | ObjLabelStmt _ => OBJECT_LABEL
  | ObjTypeDecl _ => OBJECT_TYPE
  | ObjPackage _ => OBJECT_PACKAGE
  end.

(** *** [TypeDecl.Type()]

    The receiver is the address [o]; the custom type it builds points
    back to that address and lives in the local package. *)
Definition TypeDecl_Type (h : declStore) (o : loc) : option Type_ :=
  d ← h !! o;
  Some match AliasedType d with
       | None => SimpleType (simpleTypeID_of (td_name d))
       | Some _ => CustomType (td_name d) "" o
       end.

(** *** Builtin type declarations *)

Definition builtinTypeNames : list string :=
  ["bool"; "byte"; "complex128"; "complex64"; "error"; "float32";
   "float64"; "int"; "int16"; "int32"; "int64"; "int8"; "rune";
   "string"; "uint"; "uint16"; "uint32"; "uint64"; "uint8";
   "uintptr"]%string.

(** [initVarDecls]: one fresh declaration per builtin name, with no
    aliased type, registered under its name.  The store starts empty,
    so its size is the next free address. *)
Definition initVarDecls (names : list string)
  : declStore * gmap string loc :=
  foldl (fun st name =>
           let p := size (fst st) in
           (<[p := mkTypeDecl 0 name None]> (fst st),
            <[name := p]> (snd st)))
        (∅, ∅) names.

(** The store and the [builtinTypes] table as [init] leaves them. *)
Definition builtinStore : declStore :=
  Eval vm_compute in fst (initVarDecls builtinTypeNames).

Definition builtinTypes : gmap string loc :=
  Eval vm_compute in snd (initVarDecls builtinTypeNames).

Definition GetBuiltinType (name : string) : option loc :=
  builtinTypes !! name.

(** *** Outcomes of calls that may panic or loop *)

(** [Returns a]: the call returns [a].  [Panics]: a run-time panic (a
    nil dereference, an assignment into a nil map).  [OutOfFuel]: a loop
    without a bound in the source was still running after the number of
    turns that the model was given. *)
Inductive Outcome (A : Type) :=
  | Returns (a : A)
  | Panics
  | OutOfFuel.
Arguments Returns {A} a.
Arguments Panics {A}.
Arguments OutOfFuel {A}.

(** *** Code blocks *)

(** [CodeBlock]: the statements are kept as their positions; [None] is
    the nil map of a block built without its [Labels]. *)
Record CodeBlock := mkCodeBlock {
  Statements : list Z;
  Labels : option (gmap string LabelStmt)
}.

(** Reading a map: a nil map reads as an empty one. *)
Definition labelsOf (cb : CodeBlock) : gmap string LabelStmt :=
  default ∅ (Labels cb).

(** [AddLabel]: the block afterwards and the error, if any.  On a nil
    map the lookup finds nothing and the assignment panics. *)
Definition AddLabel (cb : CodeBlock) (l : LabelStmt)
  : Outcome (CodeBlock * option string) :=
  match labelsOf cb !! lbl_name l with
  | Some _ =>
      Returns
        (cb, Some ("Label `" +:+ lbl_name l +:+ "` declared more than once"))
  | None =>
      match Labels cb with
      | None => Panics
      | Some labels =>
          Returns
            (mkCodeBlock (Statements cb) (Some (<[lbl_name l := l]> labels)),
             None)
      end
  end.

(** *** [CustomType.RootType()]

    The receiver is given by its [Decl], the only field that the method
    reads.  The loop of the source has no bound, so the model counts
    its turns in [fuel].  It panics on a nil [Decl] and on the call of
    [Kind()] on a nil [AliasedType]. *)
Fixpoint rootLoop (h : declStore) (fuel : nat) (current : option Type_)
  : Outcome Type_ :=
  match current with
  | None => Panics
  | Some (CustomType _ _ decl) =>
      match fuel with
      | O => OutOfFuel
      | S fuel' =>
          match h !! decl with
          | None => Panics
          | Some d => rootLoop h fuel' (AliasedType d)
          end
      end
  | Some t => Returns t
  end.

Definition RootType (h : declStore) (fuel : nat) (decl : loc)
  : Outcome Type_ :=
  match h !! decl with
  | None => Panics
  | Some d => rootLoop h fuel (AliasedType d)
  end.

(** The chain of declarations that [RootType] walks from the
    declaration at [decl]: [AliasChain h decl path root] lists in [path]
    the addresses visited, and [root] is the type that the last of them
    aliases, which is not a custom type. *)
Inductive AliasChain (h : declStore) : loc -> list loc -> Type_ -> Prop :=
  | chain_root decl d root :
      h !! decl = Some d ->
      AliasedType d = Some root ->
      KindOf root <> KIND_CUSTOM ->
      AliasChain h decl [decl] root
  | chain_alias decl d name pkg next path root :
      h !! decl = Some d ->
      AliasedType d = Some (CustomType name pkg next) ->
      AliasChain h next path root ->
      AliasChain h decl (decl :: path) root.

(** What [initVarDecls] establishes for each entry of [builtinTypes]:
    the entry points to a declaration of that name without an aliased
    type. *)
Definition builtinEntryOk (name : string) (p : loc) : bool :=
  match builtinStore !! p with
  | Some d =>
      bool_decide (td_name d = name)
      && match AliasedType d with None => true | Some _ => false end
  | None => false
  end.

(** One step of the chain: the declaration at [d] aliases a custom type
    declared at [d']. *)
Definition aliasStep (h : declStore) (d d' : loc) : Prop :=
  exists decl name pkg,
    h !! d = Some decl /\ AliasedType decl = Some (CustomType name pkg d').

(** *** More of [ast.go] *)

(** The loop of [initSimpleTypeIDs] over the entries of a table, taken
    in the order [entries]: Go leaves the order in which a map is
    iterated open. *)
Definition invertEntries (entries : list (SimpleTypeID * string))
  : gmap string SimpleTypeID :=
  foldl (fun acc e => <[snd e := fst e]> acc) ∅ entries.

(** [SimpleType.String()]: an id without a name renders as the empty
    string, the zero value of the map. *)
Definition SimpleType_String (ID : SimpleTypeID) : string :=
  default "" (simpleTypeAsStr !! ID).

(** [StructType.GetTypeN]: the receiver is given by its [Members] and
    [Keys].  Indexing [Keys] out of range panics; a key that [Members]
    lacks yields the nil type ([Returns None]). *)
Definition GetTypeN (Members : list (string * Type_)) (Keys : list string)
    (n : Z) : Outcome (option Type_) :=
  if bool_decide (0 <= n) then
    match Keys !! Z.to_nat n with
    | Some key => Returns ((list_to_map Members : gmap string Type_) !! key)
    | None => Panics
    end
  else Panics.

End Ast.

(** ** The identifier stack *)

Module Scope.
Import Ast.

(** [type IdentStack []map[string]Object]: the innermost scope is the
    last element. *)
Abbreviation IdentStack := (list (gmap string Object)).

(** [pushScope]: append an empty scope. *)
Definition pushScope (stack : IdentStack) : IdentStack :=
  stack ++ [∅].

(** [popScope]: drop the last scope; slicing an empty stack to length
    [-1] panics ([None]). *)
Definition popScope (stack : IdentStack) : option IdentStack :=
  match length stack with
  | O => None
  | S n => Some (take n stack)
  end.

Definition empty (stack : IdentStack) : bool :=
  bool_decide (length stack = 0%nat).

(** [addObject]: bind [v] under its name in the last scope.  Indexing
    an empty stack at [-1] panics, and so does taking the name of a nil
    type declaration ([None]). *)
Definition addObject (h : declStore) (v : Object) (stack : IdentStack)
  : option IdentStack :=
  match length stack with
  | O => None
  | S n =>
      name ← Name h v;
      Some (alter (fun scope => <[name := v]> scope) n stack)
  end.

(** The loop [for i := len - 1; i >= 0; i--] of [findObject],
    entered with [n = i + 1]. *)
Fixpoint searchObject (stack : IdentStack) (name : string) (n : nat)
  : option Object :=
  match n with
  | O => None
  | S i =>
      match stack !! i ≫= (fun scope => scope !! name) with
      | Some v => Some v
      | None => searchObject stack name i
      end
  end.

(** [findObject]: [None] is the nil result. *)
Definition findObject (stack : IdentStack) (name : string) : option Object :=
  match GetBuiltinType name with
  | Some decl => Some (ObjTypeDecl decl)
  | None => searchObject stack name (length stack)
  end.

(** The loop of [findTypeDecl]: a binding counts only when its object
    is a type declaration, which [*TypeDecl] alone is. *)
Fixpoint searchTypeDecl (stack : IdentStack) (name : string) (n : nat)
  : option loc :=
  match n with
  | O => None
  | S i =>
      match stack !! i ≫= (fun scope => scope !! name) with
      | Some (ObjTypeDecl d) => Some d
      | _ => searchTypeDecl stack name i
      end
  end.

Definition findTypeDecl (stack : IdentStack) (name : string) : option loc :=
  match GetBuiltinType name with
  | Some decl => Some decl
  | None => searchTypeDecl stack name (length stack)
  end.

(** The binding of [name] that a search from the innermost scope
    outwards meets first: [InnermostBinding stack name o] when some scope
    binds [name] to [o] and no scope inside it binds [name]. *)
Definition InnermostBinding (stack : IdentStack) (name : string) (o : Object)
  : Prop :=
  exists outer scope inner,
    stack = outer ++ scope :: inner /\
    scope !! name = Some o /\
    Forall (fun s : gmap string Object => s !! name = None) inner.

(** No scope of the stack binds [name]. *)
Definition Unbound (stack : IdentStack) (name : string) : Prop :=
  Forall (fun s : gmap string Object => s !! name = None) stack.

(** The binding of [name] to a type declaration that a search from the
    innermost scope outwards meets first, the bindings to other objects
    being passed over. *)
Definition InnermostTypeBinding (stack : IdentStack) (name : string) (d : loc)
  : Prop :=
  exists outer scope inner,
    stack = outer ++ scope :: inner /\
    scope !! name = Some (ObjTypeDecl d) /\
    Forall (fun s : gmap string Object =>
              forall d', s !! name <> Some (ObjTypeDecl d')) inner.

(** *** More of the identifier stack *)

(** The result of a slice expression [s[:n]]: within the length of the
    slice it is a prefix; beyond it Go reaches into the capacity of the
    backing array or panics, which a list does not record. *)
Inductive Resliced :=
  | ResliceTo (stack : IdentStack)
  | BeyondLength.

(** [eraseAllExceptBuiltins]: the stack resliced to its first scope. *)
Definition eraseAllExceptBuiltins (stack : IdentStack) : Resliced :=
  match stack with
  | [] => BeyondLength
  | root :: _ => ResliceTo [root]
  end.

(** Every binding of the stack is filed under the name of its
    object. *)
Definition WellKeyed (h : declStore) (stack : IdentStack) : Prop :=
  forall (scope : gmap string Object) (key : string) (o : Object),
    scope ∈ stack -> scope !! key = Some o -> Name h o = Some key.

(** No scope of the stack binds [name] to a type declaration. *)
Definition NoTypeBinding (stack : IdentStack) (name : string) : Prop :=
  Forall (fun s : gmap string Object =>
            forall d, s !! name <> Some (ObjTypeDecl d)) stack.

End Scope.

(** ** Type negotiation *)

Module Negotiation.
Import Ast.

(** Two lists agree when they have the same length and their members
    agree pairwise. *)
Definition listEq {A : Type} (eq : A -> A -> bool) : list A -> list A -> bool :=
  fix go (l1 l2 : list A) : bool :=
    match l1, l2 with
    | [], [] => true
    | x :: l1', y :: l2' => eq x y && go l1' l2'
    | _, _ => false
    end.

(** Structural identity of two types, member by member. *)
Fixpoint typeEq (a b : Type_) : bool :=
  match a, b with
  | SimpleType i, SimpleType j => bool_decide (i = j)
  | ArrayType n x, ArrayType m y => bool_decide (n = m) && typeEq x y
  | SliceType x, SliceType y => typeEq x y
  | MapType k1 v1, MapType k2 v2 => typeEq k1 k2 && typeEq v1 v2
  | FuncType args1 res1, FuncType args2 res2 =>
      listEq typeEq args1 args2 && listEq typeEq res1 res2
  | PointerType x, PointerType y => typeEq x y
  | TupleType m1, TupleType m2 => listEq typeEq m1 m2
  | StructType m1 k1 f1 n1, StructType m2 k2 f2 n2 =>
      listEq (fun x y => bool_decide (fst x = fst y) && typeEq (snd x) (snd y))
             m1 m2
      && bool_decide (k1 = k2) && bool_decide (f1 = f2)
      && bool_decide (n1 = n2)
  | CustomType n1 p1 d1, CustomType n2 p2 d2 =>
      bool_decide (n1 = n2) && bool_decide (p1 = p2) && bool_decide (d1 = d2)
  | UnknownType, UnknownType => true
  | _, _ => false
  end.

Definition isUnknown (t : Type_) : bool :=
  match t with
  | UnknownType => true
  | _ => false
  end.

(** The two ways a negotiation fails: two known types that differ, and
    no known type to settle on. *)
Inductive NegotiateError :=
  | TypeMismatch (t other : Type_)
  | UnresolvedInference.

(** Modelled from the spec: [Negotiate], which the [Type] interface of
    [ast.go] declares and no source file implements.  If one side is
    Unknown and the other Known, the Known type wins; two Known types
    must be structurally identical, or the negotiation fails with a
    mismatch naming both; two Unknowns fail.  The spec gives no result
    for a composite type that has an Unknown inside: the model fails
    there. *)
Definition Negotiate (t other : Type_) : Type_ + NegotiateError :=
  if isUnknown t then
    if isUnknown other then inr UnresolvedInference
    else if Known other then inl other
    else inr UnresolvedInference
  else if isUnknown other then
    if Known t then inl t else inr UnresolvedInference
  else if Known t && Known other then
    if typeEq t other then inl t else inr (TypeMismatch t other)
  else inr UnresolvedInference.

End Negotiation.

(** ** Ordering the top-level statements of a package *)

Module Pkg.

(** Modelled from the spec: [TopLevelStmt], which [package_test.go]
    builds and no source file declares.  A top-level statement with the
    names it declares ([Decls()]) and the set of the free identifier
    names it refers to (the keys of [unboundIdents]); [Stmt] is the name
    that the test gives its statement. *)
Record TopLevelStmt := mkTopLevelStmt {
  Stmt : string;
  Decls : list string;
  unboundIdents : gset string
}.

(** Modelled from the spec: the edge rule.  Statement [a] depends on
    statement [b] iff some name in [a]'s unbound set appears in [b]'s
    declared set.  An unbound identifier is a name that the statement
    refers to and does not itself declare, so the rule gives no edge
    from a statement built by [loadDeps] to itself. *)
Definition dependsOn (a b : TopLevelStmt) : bool :=
  bool_decide (Exists (fun name => name ∈ unboundIdents a) (Decls b)).

(** A statement is available when all of its dependencies are already
    emitted, that is when none of them is among the remaining ones. *)
Definition available (remaining : list TopLevelStmt) (s : TopLevelStmt)
  : bool :=
  forallb (fun d => negb (dependsOn s d)) remaining.

(** The first available statement among [candidates], in input order,
    and the remaining statements without it, their order kept. *)
Fixpoint selectFrom (remaining before candidates : list TopLevelStmt)
  : option (TopLevelStmt * list TopLevelStmt) :=
  match candidates with
  | [] => None
  | s :: after =>
      if available remaining s then Some (s, before ++ after)
      else selectFrom remaining (before ++ [s]) after
  end.

Definition selectAvailable (remaining : list TopLevelStmt)
  : option (TopLevelStmt * list TopLevelStmt) :=
  selectFrom remaining [] remaining.

(** The failure of the sort: the names declared by the statements that
    could not be emitted. *)
Inductive SortError :=
  | DependencyCycle (names : list string).

Definition involved (remaining : list TopLevelStmt) : list string :=
  concat (Decls <$> remaining).

(** One turn of the loop for each statement still to emit: select an
    available statement and append it to the output, or fail when none
    is available. *)
Fixpoint emit (n : nat) (remaining output : list TopLevelStmt)
  : SortError + list TopLevelStmt :=
  match n with
  | O => inr output
  | S n' =>
      match selectAvailable remaining with
      | Some (s, rest) => emit n' rest (output ++ [s])
      | None => inl (DependencyCycle (involved remaining))
      end
  end.

(** Modelled from the spec: [topoSort], which [package_test.go] calls
    and no source file defines.  A Kahn-style sort: repeatedly select an
    available statement and append it to the output, ties broken by
    input order; when no statement is available and unemitted
    statements remain, fail with a dependency-cycle error naming the
    declarations involved, and return no partial order. *)
Definition topoSort (stmts : list TopLevelStmt)
  : SortError + list TopLevelStmt :=
  emit (length stmts) stmts [].

(** The dependency edges among the statements of [stmts]. *)
Definition edge (stmts : list TopLevelStmt) (a b : TopLevelStmt) : Prop :=
  a ∈ stmts /\ b ∈ stmts /\ dependsOn a b = true.

(** The edges are acyclic when no statement reaches itself along one or
    more of them. *)
Definition Acyclic (stmts : list TopLevelStmt) : Prop :=
  forall s, ~ tc (edge stmts) s s.

Definition Cyclic (stmts : list TopLevelStmt) : Prop :=
  exists s, tc (edge stmts) s s.

(** The statement built by the test from a node. *)
Definition node (name : string) (decls deps : list string) : TopLevelStmt :=
  mkTopLevelStmt name decls (list_to_set deps).

(** In an ordering every statement comes after the statements it
    depends on: wherever [S] depends on [D], each occurrence of [D] is
    before each occurrence of [S]. *)
Definition DependenciesFirst (out : list TopLevelStmt) : Prop :=
  forall (i j : nat) (D S : TopLevelStmt),
    out !! i = Some D -> out !! j = Some S ->
    (exists name, name ∈ unboundIdents S /\ name ∈ Decls D) ->
    (i < j)%nat.

(** The shape of what the loop emits: the head depends neither on
    itself nor on anything after it, and so on down the list. *)
Inductive Emitted : list TopLevelStmt -> Prop :=
  | Emitted_nil : Emitted []
  | Emitted_cons s l :
      (forall d, d ∈ s :: l -> dependsOn s d = false) ->
      Emitted l -> Emitted (s :: l).

End Pkg.

(** ** Sample declarations, stacks and blocks *)

Module Samples.
Import Ast Scope Pkg.

Local Open Scope string_scope.
Local Open Scope list_scope.

(** The store of the counterexample: a declaration [type T _] at
    address 0. *)
Definition storeAliasUnknown : declStore :=
  {[ 0%nat := mkTypeDecl 0 "T" (Some UnknownType) ]}.

(** A block that already has the label [loop]. *)
Definition blockWithLoop : CodeBlock :=
  mkCodeBlock [] (Some {[ "loop" := mkLabelStmt 3 "loop" None ]}).

(** [type Celsius int; type Temp Celsius]: two declarations at
    addresses 0 and 1. *)
Definition storeTwoAliases : declStore :=
  {[ 0%nat := mkTypeDecl 0 "Celsius" (Some (SimpleType SIMPLE_TYPE_INT));
     1%nat := mkTypeDecl 0 "Temp" (Some (CustomType "Celsius" "" 0%nat)) ]}.

(** [type A B; type B A]: the loop of [RootType] never leaves the
    cycle. *)
Definition storeAliasCycle : declStore :=
  {[ 0%nat := mkTypeDecl 0 "A" (Some (CustomType "B" "" 1%nat));
     1%nat := mkTypeDecl 0 "B" (Some (CustomType "A" "" 0%nat)) ]}.

(** A variable that a program names [int]. *)
Definition varInt : Variable_ := mkVariable "int" None None.

(** Another variable of that name, declared in an inner block. *)
Definition varInt' : Variable_ :=
  mkVariable "int" (Some (SimpleType SIMPLE_TYPE_STRING)) None.

(** A stack whose only scope binds [int] to that variable. *)
Definition stackIntVar : IdentStack := [ {[ "int" := ObjVariable varInt ]} ].

(** Three scopes: [x] is a variable outside, a package in the middle,
    and the innermost scope is empty. *)
Definition stackShadow : IdentStack :=
  [ {[ "x" := ObjVariable (mkVariable "x" None None) ]};
    {[ "x" := ObjPackage (mkPackage "x") ]};
    ∅ ].

(** The name [int] bound to a user type declaration at address 20 in
    the outer scope and to a variable in the inner one. *)
Definition stackTypeUnderVar : IdentStack :=
  [ {[ "int" := ObjTypeDecl 20%nat ]}; {[ "int" := ObjVariable varInt ]} ].

(** [Celsius] declared as a type outside and as a variable inside. *)
Definition stackCelsius : IdentStack :=
  [ {[ "Celsius" := ObjTypeDecl 0%nat ]};
    {[ "Celsius" := ObjVariable (mkVariable "Celsius" None None) ]} ].

(** The inputs of [TestStmtsSort], in the order of the test table. *)
Definition case0 : list TopLevelStmt :=
  [ node "1" ["a"] ["b"]; node "2" ["b"] ["c"]; node "3" ["c"] [] ].

Definition case1 : list TopLevelStmt :=
  [ node "1" ["a"] []; node "2" ["b"] ["a"]; node "3" ["c"] ["b"] ].

Definition case2 : list TopLevelStmt :=
  [ node "1" ["a"] []; node "2" ["b"] ["a"]; node "3" ["c"] ["a"] ].

Definition case3 : list TopLevelStmt :=
  [ node "1" ["a"; "aa"] []; node "2" ["b"] ["a"]; node "3" ["c"] ["aa"] ].

Definition case4 : list TopLevelStmt :=
  [ node "1" ["a"] ["b"]; node "2" ["b"] ["c"]; node "3" ["c"] ["a"] ].

Definition case5 : list TopLevelStmt :=
  [ node "1" ["a"; "aa"] ["b"]; node "2" ["b"] ["a"];
    node "3" ["c"] ["aa"] ].

(** What the test reads off a result: the names of the statements in
    the order returned, or the failure. *)
Definition order (r : SortError + list TopLevelStmt) : option (list string) :=
  match r with
  | inr l => Some (Stmt <$> l)
  | inl _ => None
  end.

(** [func main(): main()]: the statement declares the name it uses,
    and its unbound set is empty. *)
Definition selfReference : list TopLevelStmt :=
  [ node "main" ["main"] [] ].

(** A statement that refers to a name [z] declared nowhere. *)
Definition undeclaredReference : list TopLevelStmt :=
  [ node "1" ["a"] ["z"]; node "2" ["b"] ["a"] ].

(** The depth of a statement of [case0] in its dependency chain. *)
Definition rank0 (s : TopLevelStmt) : nat :=
  if String.eqb (Stmt s) "1" then 2
  else if String.eqb (Stmt s) "2" then 1 else 0.

End Samples.

(** * Properties *)

(** ** The type algebra and the declarations *)

Module AstFacts.
Import Ast Samples.

Local Open Scope string_scope.
Local Open Scope list_scope.

Lemma forallb_false_elem {A} (f : A -> bool) (l : list A) (x : A) :
  x ∈ l -> f x = false -> forallb f l = false.
Proof.
  induction 1 as [x l|x y l _ IH]; intros Hx; simpl.
  - by rewrite Hx.
  - rewrite IH by done. apply andb_false_r.
Qed.

Lemma forallb_false_inv {A} (f : A -> bool) (l : list A) :
  forallb f l = false -> exists x, x ∈ l /\ f x = false.
Proof.
  induction l as [|y l IH]; simpl; [done|].
  destruct (f y) eqn:Hy; simpl.
  - intros (x & Hx & Hf)%IH. exists x. split; [by right|done].
  - intros _. exists y. split; [by left|done].
Qed.

(** An Unknown in the structure, named types taken as opaque, makes the
    type not known. *)
Lemma ContainsUnknown_not_Known (t : Type_) :
  ContainsUnknown opaqueNames t -> Known t = false.
Proof.
  induction 1 as [ | | | | |args res t Hin _ IH|args res t Hin _ IH| |
                   ms t Hin _ IH|ms ks fs n m Hin _ IH|n p d t Hunder _ _];
    simpl; try done.
  - by rewrite IHContainsUnknown.
  - rewrite IHContainsUnknown. apply andb_false_r.
  - by rewrite (forallb_false_elem Known args t).
  - rewrite (forallb_false_elem Known res t) by done. apply andb_false_r.
  - by apply (forallb_false_elem Known ms t).
  - by apply (forallb_false_elem (fun m => Known (snd m)) ms m).
Qed.

(** A type that is not known has an Unknown in its structure, whatever
    is taken to lie beneath the named types. *)
Lemma not_Known_ContainsUnknown under (t : Type_) :
  Known t = false -> ContainsUnknown under t.
Proof.
  induction t as [id|n t IH|t IH|k v IHk IHv|args res IHa IHr|t IH|ms IH|
                  ms ks fs n IH|n p d| ] using Type_nested_ind;
    simpl; intros HK; try done.
  - constructor. auto.
  - constructor. auto.
  - apply andb_false_iff in HK as [HK|HK].
    + apply cu_map_key. auto.
    + apply cu_map_value. auto.
  - apply andb_false_iff in HK as [HK|HK].
    + apply forallb_false_inv in HK as (t & Hin & Ht).
      apply cu_func_arg with t; [done|].
      rewrite Forall_forall in IHa. auto.
    + apply forallb_false_inv in HK as (t & Hin & Ht).
      apply cu_func_result with t; [done|].
      rewrite Forall_forall in IHr. auto.
  - constructor. auto.
  - apply forallb_false_inv in HK as (t & Hin & Ht).
    apply cu_tuple with t; [done|].
    rewrite Forall_forall in IH. auto.
  - apply forallb_false_inv in HK as (m & Hin & Hm).
    apply cu_struct with m; [done|].
    rewrite Forall_forall in IH. auto.
  - constructor.
Qed.

(** C2, as stated, fails: the named type [T] declared as an alias of
    Unknown is Known although an Unknown lies beneath it. *)
Lemma Known_custom_over_unknown :
  ~ (forall (h : declStore) (t : Type_),
       Known t = true <-> ~ ContainsUnknown (aliasedTypeAt h) t).
Proof.
  intros H.
  destruct (H storeAliasUnknown (CustomType "T" "" 0%nat)) as [Hk _].
  apply Hk; [done|].
  apply cu_custom with UnknownType; [done|constructor].
Qed.

(** C2, amended: [Known()] is true iff no Unknown occurs in the
    structure of the type, through array, slice, map, pointer, tuple,
    struct and func members, a named (Custom) type being a leaf that is
    always known, whatever its declaration aliases. *)
Theorem Known_iff_no_Unknown (t : Type_) :
  Known t = true <-> ~ ContainsUnknown opaqueNames t.
Proof.
  split.
  - intros HK HC. apply ContainsUnknown_not_Known in HC. congruence.
  - intros HC. destruct (Known t) eqn:HK; [done|].
    destruct HC. by apply not_Known_ContainsUnknown.
Qed.

(** A named type is known, whatever the store holds. *)
Lemma Known_CustomType name pkg decl : Known (CustomType name pkg decl) = true.
Proof. reflexivity. Qed.

(** *** Adding a label to a block *)

(** C6: [AddLabel] returns an error iff the block already has a label
    of that name, and then the block it leaves is the block it was
    given; when the name is absent and the label map is allocated it
    succeeds, and the label map afterwards binds the name to the label
    and has every other entry as it was. *)
Theorem AddLabel_spec (cb : CodeBlock) (l : LabelStmt) :
  ((exists cb' err, AddLabel cb l = Returns (cb', Some err)) <->
     is_Some (labelsOf cb !! lbl_name l)) /\
  (forall cb' err, AddLabel cb l = Returns (cb', Some err) -> cb' = cb) /\
  (forall cb', AddLabel cb l = Returns (cb', None) ->
     labelsOf cb' !! lbl_name l = Some l /\
     (forall k, k <> lbl_name l -> labelsOf cb' !! k = labelsOf cb !! k) /\
     Statements cb' = Statements cb) /\
  (is_Some (labelsOf cb !! lbl_name l) ->
     exists err, AddLabel cb l = Returns (cb, Some err)) /\
  (forall labels,
     Labels cb = Some labels -> labels !! lbl_name l = None ->
     AddLabel cb l =
       Returns (mkCodeBlock (Statements cb)
                            (Some (<[lbl_name l := l]> labels)), None)).
Proof.
  unfold AddLabel.
  destruct (labelsOf cb !! lbl_name l) as [old|] eqn:Hold.
  - split; [split; eauto|]. split; [by intros cb' err [= <- _]|].
    split; [done|]. split; [eauto|].
    intros labels Hl Hnone. unfold labelsOf in Hold. rewrite Hl in Hold.
    simpl in Hold. congruence.
  - split; [split; [|by intros [? [=]]]|split; [|split; [|split]]].
    + intros (cb' & err & H). by destruct (Labels cb).
    + intros cb' err H. by destruct (Labels cb).
    + intros cb' H. unfold labelsOf in *.
      destruct (Labels cb) as [labels|]; [|done].
      injection H as <-. simpl.
      split; [apply lookup_insert_eq|].
      split; [|done]. intros k Hk. by apply lookup_insert_ne.
    + by intros [? [=]].
    + intros labels Hl _. by rewrite Hl.
Qed.

(** On a block whose label map is allocated [AddLabel] returns. *)
Lemma AddLabel_returns (cb : CodeBlock) (l : LabelStmt) :
  is_Some (Labels cb) -> exists r, AddLabel cb l = Returns r.
Proof.
  intros [labels Hl]. unfold AddLabel, labelsOf. rewrite Hl. simpl.
  destruct (labels !! lbl_name l); eauto.
Qed.

Lemma AddLabel_spec_witness :
  (exists err,
     AddLabel blockWithLoop (mkLabelStmt 9 "loop" None)
       = Returns (blockWithLoop, Some err)) /\
  AddLabel blockWithLoop (mkLabelStmt 9 "exit" None)
    = Returns (mkCodeBlock []
                 (Some (<["exit" := mkLabelStmt 9 "exit" None]>
                          {[ "loop" := mkLabelStmt 3 "loop" None ]})),
               None) /\
  labelsOf (mkCodeBlock []
              (Some (<["exit" := mkLabelStmt 9 "exit" None]>
                       {[ "loop" := mkLabelStmt 3 "loop" None ]})))
    !! "exit" = Some (mkLabelStmt 9 "exit" None).
Proof.
  split; [|split].
  - apply (proj1 (proj2 (proj2 (proj2
      (AddLabel_spec blockWithLoop (mkLabelStmt 9 "loop" None)))))).
    vm_compute. eauto.
  - apply (proj2 (proj2 (proj2 (proj2
      (AddLabel_spec blockWithLoop (mkLabelStmt 9 "exit" None)))))
      {[ "loop" := mkLabelStmt 3 "loop" None ]}); reflexivity.
  - apply (proj1 (proj2 (proj2
      (AddLabel_spec blockWithLoop (mkLabelStmt 9 "exit" None))))).
    reflexivity.
Defined.

(** *** The root of a named type *)

Lemma rootLoop_not_custom h fuel (t : Type_) :
  KindOf t <> KIND_CUSTOM -> rootLoop h fuel (Some t) = Returns t.
Proof. destruct t, fuel; simpl; congruence. Qed.

Lemma AliasChain_nonempty h decl path root :
  AliasChain h decl path root -> (0 < length path)%nat.
Proof. destruct 1; simpl; lia. Qed.

(** Along a chain the loop needs no more turns than the chain has
    declarations. *)
Lemma RootType_chain h decl path root :
  AliasChain h decl path root ->
  forall fuel, (length path <= fuel)%nat ->
    RootType h fuel decl = Returns root.
Proof.
  induction 1 as [decl d root Hd Ha Hk|decl d name pkg next path root Hd Ha Hc IH];
    intros fuel Hfuel; unfold RootType; rewrite Hd, Ha.
  - by apply rootLoop_not_custom.
  - simpl in Hfuel. apply AliasChain_nonempty in Hc as Hpos.
    destruct fuel as [|fuel]; [lia|]. simpl.
    specialize (IH fuel ltac:(lia)). unfold RootType in IH.
    destruct (h !! next); [done|]. by destruct fuel.
Qed.

Lemma AliasChain_root_kind h decl path root :
  AliasChain h decl path root -> KindOf root <> KIND_CUSTOM.
Proof. induction 1; auto. Qed.

(** The chain from a declaration is unique. *)
Lemma AliasChain_det h decl p1 r1 p2 r2 :
  AliasChain h decl p1 r1 -> AliasChain h decl p2 r2 -> p1 = p2 /\ r1 = r2.
Proof.
  intros H1. revert p2 r2.
  induction H1 as [decl d root Hd Ha Hk|decl d name pkg next path root Hd Ha Hc IH];
    intros p2 r2 H2; inversion H2; subst; simplify_eq; try done.
  match goal with H : AliasChain h next _ _ |- _ => rename H into Hrest end.
  by destruct (IH _ _ Hrest) as [-> ->].
Qed.

(** From every declaration on a chain runs the rest of the chain. *)
Lemma AliasChain_from_member h decl path root x :
  AliasChain h decl path root -> x ∈ path ->
  exists path', AliasChain h x path' root /\ (length path' <= length path)%nat.
Proof.
  induction 1 as [decl d root Hd Ha Hk|decl d name pkg next path root Hd Ha Hc IH];
    intros Hx.
  - apply list_elem_of_singleton in Hx as ->.
    exists [decl]. split; [by eapply chain_root|done].
  - apply elem_of_cons in Hx as [->|Hx].
    + exists (decl :: path). split; [by eapply chain_alias|done].
    + destruct (IH Hx) as (path' & Hc' & Hlen).
      exists path'. split; [done|simpl; lia].
Qed.

(** A chain that reaches a root visits no declaration twice. *)
Lemma AliasChain_NoDup h decl path root :
  AliasChain h decl path root -> NoDup path.
Proof.
  induction 1 as [decl d root Hd Ha Hk|decl d name pkg next path root Hd Ha Hc IH].
  - apply NoDup_singleton.
  - apply NoDup_cons. split; [|done]. intros Hin.
    destruct (AliasChain_from_member _ _ _ _ _ Hc Hin) as (path' & Hc' & Hlen).
    assert (AliasChain h decl (decl :: path) root) as Hfull
      by (by eapply chain_alias).
    destruct (AliasChain_det _ _ _ _ _ _ Hc' Hfull) as [-> _].
    simpl in Hlen. lia.
Qed.

(** C7: when the chain of aliases from the declaration of a custom
    type is finite and acyclic and reaches the non-custom type [root],
    [RootType] returns [root] after at most as many turns of its loop
    as the chain has declarations, and the kind of [root] is not
    [KIND_CUSTOM]. *)
Theorem RootType_terminates (h : declStore) (decl : loc)
    (path : list loc) (root : Type_) :
  AliasChain h decl path root ->
  NoDup path ->
  (forall fuel, (length path <= fuel)%nat ->
     RootType h fuel decl = Returns root) /\
  KindOf root <> KIND_CUSTOM.
Proof.
  intros Hc _. split.
  - by apply RootType_chain.
  - by eapply AliasChain_root_kind.
Qed.

Lemma RootType_terminates_witness :
  RootType storeTwoAliases 2 1%nat = Returns (SimpleType SIMPLE_TYPE_INT) /\
  KindOf (SimpleType SIMPLE_TYPE_INT) <> KIND_CUSTOM.
Proof.
  destruct (RootType_terminates storeTwoAliases 1%nat [1%nat; 0%nat]
              (SimpleType SIMPLE_TYPE_INT)) as [Hret Hkind].
  - eapply chain_alias; [reflexivity|reflexivity|].
    eapply chain_root; [reflexivity|reflexivity|discriminate].
  - apply (bool_decide_unpack _). vm_compute. exact I.
  - split; [apply Hret; simpl; lia|exact Hkind].
Defined.

Lemma RootType_alias_cycle (fuel : nat) :
  RootType storeAliasCycle fuel 0%nat = OutOfFuel /\
  RootType storeAliasCycle fuel 1%nat = OutOfFuel.
Proof.
  induction fuel as [|fuel [IH0 IH1]]; [done|].
  unfold RootType in *. split.
  - change (storeAliasCycle !! 0%nat)
      with (Some (mkTypeDecl 0 "A" (Some (CustomType "B" "" 1%nat)))) in *.
    simpl in *. exact IH1.
  - change (storeAliasCycle !! 1%nat)
      with (Some (mkTypeDecl 0 "B" (Some (CustomType "A" "" 0%nat)))) in *.
    simpl in *. exact IH0.
Qed.

(** In a store the chain from [decl] is finite as soon as it is acyclic
    and every declaration on it aliases some type: the store has only
    finitely many declarations to visit. *)
Lemma AliasChain_of_acyclic (h : declStore) (decl : loc) :
  (forall d, rtc (aliasStep h) decl d ->
     exists dd t, h !! d = Some dd /\ AliasedType dd = Some t) ->
  (forall d, rtc (aliasStep h) decl d -> ~ tc (aliasStep h) d d) ->
  exists path root, AliasChain h decl path root.
Proof.
  intros Hwf Hacyc.
  enough (forall n visited d,
            NoDup visited ->
            (forall v, v ∈ visited -> v ∈ dom h /\ tc (aliasStep h) v d) ->
            rtc (aliasStep h) decl d ->
            (size (dom h) <= length visited + n)%nat ->
            exists path root, AliasChain h d path root) as Hgen.
  { apply (Hgen (size (dom h)) [] decl); [constructor|set_solver|done|].
    simpl. lia. }
  induction n as [|n IH]; intros visited d Hnd Hvis Hreach Hsize.
  all: destruct (Hwf d Hreach) as (dd & t & Hd & Ha).
  all: assert (d ∉ visited) as Hfresh
         by (intros Hin; apply (Hacyc d Hreach); by apply Hvis).
  all: assert (length (d :: visited) <= size (dom h))%nat as Hroom.
  1,3: (unfold size, set_size; simpl;
        apply (submseteq_length (d :: visited)), NoDup_submseteq;
        [by apply NoDup_cons|];
        intros x [->|Hx]%elem_of_cons; apply elem_of_elements;
        [by apply elem_of_dom_2 with dd|by apply Hvis]).
  - simpl in Hroom. lia.
  - destruct (decide (KindOf t = KIND_CUSTOM)) as [Hk|Hk].
    + destruct t as [| | | | | | | |name pkg next|]; try discriminate Hk.
      assert (aliasStep h d next) as Hstep by (by exists dd, name, pkg).
      destruct (IH (d :: visited) next) as (path & root & Hc).
      * by apply NoDup_cons.
      * intros v [->|Hv]%elem_of_cons.
        -- split; [by apply elem_of_dom_2 with dd|by apply tc_once].
        -- destruct (Hvis v Hv) as [Hdom Htc].
           split; [done|]. eapply tc_r; eauto.
      * eapply rtc_r; eauto.
      * simpl. lia.
      * exists (d :: path), root. by eapply chain_alias.
    + exists [d], t. by eapply chain_root.
Qed.

(** A custom type over a declaration without an aliased type: the loop
    calls [Kind()] on nil. *)
Lemma RootType_nil_alias h fuel decl d :
  h !! decl = Some d -> AliasedType d = None ->
  RootType h fuel decl = Panics.
Proof. intros Hd Ha. unfold RootType. rewrite Hd, Ha. by destruct fuel. Qed.

(** *** The type that a declaration denotes *)

Lemma builtinTypes_entries :
  map_Forall (fun name p => builtinEntryOk name p = true) builtinTypes.
Proof. apply (bool_decide_unpack _). vm_compute. exact I. Qed.

Lemma GetBuiltinType_decl name p :
  GetBuiltinType name = Some p ->
  exists d, builtinStore !! p = Some d /\
            td_name d = name /\ AliasedType d = None.
Proof.
  intros Hp. apply builtinTypes_entries in Hp.
  unfold builtinEntryOk in Hp.
  destruct (builtinStore !! p) as [d|]; [|done].
  apply andb_true_iff in Hp as [Hn Ha].
  apply bool_decide_eq_true in Hn.
  exists d. split; [done|]. split; [done|].
  by destruct (AliasedType d).
Qed.

(** The builtin type names are exactly the keys of [builtinTypes]. *)
Lemma GetBuiltinType_names name :
  is_Some (GetBuiltinType name) <-> name ∈ builtinTypeNames.
Proof.
  unfold GetBuiltinType. rewrite <- elem_of_dom.
  replace (dom builtinTypes) with (list_to_set builtinTypeNames : gset string).
  - apply elem_of_list_to_set.
  - apply (bool_decide_unpack _). vm_compute. exact I.
Qed.

(** C9: [Type()] of a declaration without an aliased type is the
    simple type whose id is registered for the declaration's name; of a
    declaration with an aliased type it is the custom type that carries
    the declaration's name and points back to the declaration; so every
    builtin type declaration denotes a simple type. *)
Theorem TypeDecl_Type_spec :
  (forall (h : declStore) (o : loc) (d : TypeDecl),
     h !! o = Some d ->
     (AliasedType d = None ->
        TypeDecl_Type h o = Some (SimpleType (simpleTypeID_of (td_name d)))) /\
     (AliasedType d <> None ->
        TypeDecl_Type h o = Some (CustomType (td_name d) "" o))) /\
  (forall (name : string) (p : loc),
     GetBuiltinType name = Some p ->
     TypeDecl_Type builtinStore p = Some (SimpleType (simpleTypeID_of name))).
Proof.
  split.
  - intros h o d Hd. unfold TypeDecl_Type. rewrite Hd. simpl.
    split; intros Ha; destruct (AliasedType d); done.
  - intros name p (d & Hd & <- & Ha)%GetBuiltinType_decl.
    unfold TypeDecl_Type. rewrite Hd. simpl. by rewrite Ha.
Qed.

Lemma TypeDecl_Type_spec_witness :
  TypeDecl_Type storeTwoAliases 1%nat = Some (CustomType "Temp" "" 1%nat) /\
  TypeDecl_Type builtinStore 13%nat = Some (SimpleType SIMPLE_TYPE_STRING).
Proof.
  split.
  - apply (proj1 TypeDecl_Type_spec storeTwoAliases 1%nat
             (mkTypeDecl 0 "Temp" (Some (CustomType "Celsius" "" 0%nat)))).
    + reflexivity.
    + discriminate.
  - apply (proj2 TypeDecl_Type_spec "string" 13%nat). reflexivity.
Defined.

End AstFacts.

(** ** Negotiation *)

Module NegotiationFacts.
Import Ast Negotiation.

Lemma listEq_eq {A} (eq : A -> A -> bool) (l1 : list A) :
  Forall (fun x => forall y, eq x y = true -> x = y) l1 ->
  forall l2, listEq eq l1 l2 = true -> l1 = l2.
Proof.
  induction 1 as [|x l1 Hx _ IH]; intros [|y l2]; simpl; try done.
  intros [Hxy Hl]%andb_true_iff. f_equal; auto.
Qed.

Lemma listEq_refl {A} (eq : A -> A -> bool) (l : list A) :
  Forall (fun x => eq x x = true) l -> listEq eq l l = true.
Proof.
  induction 1 as [|x l Hx _ IH]; simpl; [done|]. by rewrite Hx, IH.
Qed.

(** [typeEq] decides the identity of two types. *)
Lemma typeEq_eq (a b : Type_) : typeEq a b = true -> a = b.
Proof.
  revert b.
  induction a as [id|n t IH|t IH|k v IHk IHv|args res IHa IHr|t IH|ms IH|
                  ms ks fs n IH|n p d| ] using Type_nested_ind;
    intros [] H; simpl in H; try done;
    repeat match goal with
           | H : _ && _ = true |- _ => apply andb_true_iff in H as [? ?]
           | H : bool_decide _ = true |- _ => apply bool_decide_eq_true in H
           end; subst; try done; try (f_equal; auto; fail).
  - f_equal; by apply (listEq_eq typeEq).
  - f_equal; by apply (listEq_eq typeEq).
  - f_equal.
    eapply listEq_eq; [|eassumption].
    eapply Forall_impl; [exact IH|].
    intros [k1 t1] Ht [k2 t2] [Hk Hty]%andb_true_iff.
    apply bool_decide_eq_true in Hk. simpl in *. f_equal; auto.
Qed.

Lemma typeEq_refl (a : Type_) : typeEq a a = true.
Proof.
  induction a as [id|n t IH|t IH|k v IHk IHv|args res IHa IHr|t IH|ms IH|
                  ms ks fs n IH|n p d| ] using Type_nested_ind;
    simpl; rewrite ?bool_decide_eq_true_2 by done;
    rewrite ?IH, ?IHk, ?IHv; try done.
  - by rewrite !listEq_refl.
  - by rewrite listEq_refl.
  - rewrite listEq_refl; [done|].
    eapply Forall_impl; [exact IH|].
    intros [k1 t1] Ht. simpl in *.
    by rewrite Ht, bool_decide_eq_true_2.
Qed.

Lemma typeEq_spec (a b : Type_) : typeEq a b = true <-> a = b.
Proof.
  split; [apply typeEq_eq|]. intros ->. apply typeEq_refl.
Qed.

(** C8: for a Known type [T], [Negotiate(Unknown, T)] and
    [Negotiate(T, Unknown)] both succeed and return [T]. *)
Theorem Negotiate_Unknown_Known (T : Type_) :
  Known T = true ->
  Negotiate UnknownType T = inl T /\ Negotiate T UnknownType = inl T.
Proof.
  intros HK. unfold Negotiate.
  destruct T; simpl in *; rewrite ?HK; done.
Qed.

Lemma Negotiate_Unknown_Known_witness :
  Negotiate UnknownType (SliceType (SimpleType SIMPLE_TYPE_INT))
    = inl (SliceType (SimpleType SIMPLE_TYPE_INT)) /\
  Negotiate (SliceType (SimpleType SIMPLE_TYPE_INT)) UnknownType
    = inl (SliceType (SimpleType SIMPLE_TYPE_INT)).
Proof.
  apply (Negotiate_Unknown_Known (SliceType (SimpleType SIMPLE_TYPE_INT))).
  reflexivity.
Defined.

(** A Known type negotiates with itself to itself. *)
Lemma Negotiate_same (T : Type_) :
  Known T = true -> Negotiate T T = inl T.
Proof.
  intros HK. unfold Negotiate. rewrite HK, typeEq_refl.
  by destruct T.
Qed.

(** Two Known types that differ do not negotiate. *)
Lemma Negotiate_mismatch (a b : Type_) :
  Known a = true -> Known b = true -> a <> b ->
  Negotiate a b = inr (TypeMismatch a b).
Proof.
  intros Ha Hb Hne. unfold Negotiate. rewrite Ha, Hb.
  destruct (typeEq a b) eqn:Heq.
  - by apply typeEq_eq in Heq.
  - by destruct a, b.
Qed.

(** Two Unknowns do not negotiate. *)
Lemma Negotiate_Unknown_Unknown :
  Negotiate UnknownType UnknownType = inr UnresolvedInference.
Proof. reflexivity. Qed.

End NegotiationFacts.

(** ** The identifier stack *)

Module ScopeFacts.
Import Ast Scope Samples.

Local Open Scope string_scope.
Local Open Scope list_scope.

Section Search.
Variable name : string.

(** The loops look only at the scopes below their counter. *)
Lemma searchObject_app (stack ext : IdentStack) (n : nat) :
  (n <= length stack)%nat ->
  searchObject (stack ++ ext) name n = searchObject stack name n.
Proof.
  induction n as [|n IH]; intros Hn; simpl; [done|].
  rewrite lookup_app_l by lia. rewrite IH by lia. done.
Qed.

Lemma searchTypeDecl_app (stack ext : IdentStack) (n : nat) :
  (n <= length stack)%nat ->
  searchTypeDecl (stack ++ ext) name n = searchTypeDecl stack name n.
Proof.
  induction n as [|n IH]; intros Hn; simpl; [done|].
  rewrite lookup_app_l by lia. rewrite IH by lia. done.
Qed.

(** The first turn of the loops looks at the innermost scope. *)
Lemma searchObject_snoc (stack : IdentStack) (scope : gmap string Object) :
  searchObject (stack ++ [scope]) name (length (stack ++ [scope])) =
  match scope !! name with
  | Some v => Some v
  | None => searchObject stack name (length stack)
  end.
Proof.
  rewrite length_app, Nat.add_1_r. simpl.
  rewrite lookup_app_r, Nat.sub_diag by lia. simpl.
  by rewrite searchObject_app.
Qed.

Lemma searchTypeDecl_snoc (stack : IdentStack) (scope : gmap string Object) :
  searchTypeDecl (stack ++ [scope]) name (length (stack ++ [scope])) =
  match scope !! name with
  | Some (ObjTypeDecl d) => Some d
  | _ => searchTypeDecl stack name (length stack)
  end.
Proof.
  rewrite length_app, Nat.add_1_r. simpl.
  rewrite lookup_app_r, Nat.sub_diag by lia. simpl.
  by rewrite searchTypeDecl_app.
Qed.

(** Scopes that do not bind the name are passed over. *)
Lemma searchObject_pass (outer inner : IdentStack) :
  Forall (fun s : gmap string Object => s !! name = None) inner ->
  searchObject (outer ++ inner) name (length (outer ++ inner)) =
  searchObject outer name (length outer).
Proof.
  induction inner as [|scope inner IH] using rev_ind; intros Hin.
  - by rewrite app_nil_r.
  - apply Forall_app in Hin as [Hin Hscope].
    apply (proj1 (Forall_singleton _ _)) in Hscope.
    rewrite List.app_assoc, searchObject_snoc, Hscope. auto.
Qed.

(** Scopes that bind the name to no type declaration are passed over
    by the search for a type declaration. *)
Lemma searchTypeDecl_pass (outer inner : IdentStack) :
  Forall (fun s : gmap string Object =>
            forall d', s !! name <> Some (ObjTypeDecl d')) inner ->
  searchTypeDecl (outer ++ inner) name (length (outer ++ inner)) =
  searchTypeDecl outer name (length outer).
Proof.
  induction inner as [|scope inner IH] using rev_ind; intros Hin.
  - by rewrite app_nil_r.
  - apply Forall_app in Hin as [Hin Hscope].
    apply (proj1 (Forall_singleton _ _)) in Hscope.
    rewrite List.app_assoc, searchTypeDecl_snoc.
    destruct (scope !! name) as [[| |d|]|] eqn:Hs; auto.
    by destruct (Hscope d).
Qed.

Lemma searchObject_innermost (stack : IdentStack) (o : Object) :
  InnermostBinding stack name o ->
  searchObject stack name (length stack) = Some o.
Proof.
  intros (outer & scope & inner & -> & Hscope & Hinner).
  rewrite (cons_middle scope), List.app_assoc, searchObject_pass by done.
  by rewrite searchObject_snoc, Hscope.
Qed.

Lemma searchTypeDecl_innermost (stack : IdentStack) (d : loc) :
  InnermostTypeBinding stack name d ->
  searchTypeDecl stack name (length stack) = Some d.
Proof.
  intros (outer & scope & inner & -> & Hscope & Hinner).
  rewrite (cons_middle scope), List.app_assoc, searchTypeDecl_pass by done.
  by rewrite searchTypeDecl_snoc, Hscope.
Qed.

Lemma searchObject_unbound (stack : IdentStack) :
  Unbound stack name -> searchObject stack name (length stack) = None.
Proof.
  intros Hun. exact (searchObject_pass [] stack Hun).
Qed.
End Search.

(** *** Lookup of an object *)

(** Past the builtin table the lookup is the search of the scopes. *)
Lemma findObject_innermost (stack : IdentStack) (name : string) (o : Object) :
  GetBuiltinType name = None ->
  InnermostBinding stack name o ->
  findObject stack name = Some o.
Proof.
  intros Hnb Ho. unfold findObject. rewrite Hnb.
  by apply searchObject_innermost.
Qed.

(** C1, as stated, fails: a variable bound to the name [int] in a scope
    is not returned; the builtin declaration of [int] is. *)
Lemma findObject_builtin_before_scopes :
  ~ (forall (stack : IdentStack) (name : string) (o : Object),
       InnermostBinding stack name o -> findObject stack name = Some o).
Proof.
  intros H.
  specialize (H stackIntVar "int" (ObjVariable varInt)).
  discriminate H.
  exists [], {[ "int" := ObjVariable varInt ]}, [].
  split; [done|]. split; [done|constructor].
Qed.

(** C1, amended: [findObject] consults the builtin-type table first: a
    builtin type name yields its builtin declaration whatever the
    scopes bind; any other name yields the object bound to it in the
    innermost scope that binds it; nil is returned when the name is not
    a builtin and no scope binds it. *)
Theorem findObject_spec (stack : IdentStack) (name : string) :
  (forall decl, GetBuiltinType name = Some decl ->
     findObject stack name = Some (ObjTypeDecl decl)) /\
  (GetBuiltinType name = None ->
     forall o, InnermostBinding stack name o ->
       findObject stack name = Some o) /\
  (GetBuiltinType name = None -> Unbound stack name ->
     findObject stack name = None).
Proof.
  unfold findObject. split; [|split].
  - by intros decl ->.
  - intros Hnb o Ho. by apply findObject_innermost.
  - intros -> Hun. by apply searchObject_unbound.
Qed.

Lemma findObject_spec_witness :
  findObject stackShadow "string" = Some (ObjTypeDecl 13%nat) /\
  findObject stackShadow "x" = Some (ObjPackage (mkPackage "x")) /\
  findObject stackShadow "y" = None.
Proof.
  split; [|split].
  - apply (proj1 (findObject_spec stackShadow "string")). reflexivity.
  - apply (proj1 (proj2 (findObject_spec stackShadow "x"))); [reflexivity|].
    exists [ {[ "x" := ObjVariable (mkVariable "x" None None) ]} ],
           {[ "x" := ObjPackage (mkPackage "x") ]}, [ ∅ ].
    split; [reflexivity|]. split; [reflexivity|].
    constructor; [reflexivity|constructor].
  - apply (proj2 (proj2 (findObject_spec stackShadow "y"))); [reflexivity|].
    repeat constructor.
Defined.

(** *** Shadowing *)

Lemma popScope_snoc (stack : IdentStack) (scope : gmap string Object) :
  popScope (stack ++ [scope]) = Some stack.
Proof.
  unfold popScope. rewrite length_app, Nat.add_1_r.
  by rewrite take_app_length.
Qed.

Lemma addObject_pushScope h (stack : IdentStack) (v : Object) (name : string) :
  Name h v = Some name ->
  addObject h v (pushScope stack) = Some (stack ++ [ {[ name := v ]} ]).
Proof.
  intros Hname. unfold addObject, pushScope.
  rewrite length_app, Nat.add_1_r, Hname. simpl. f_equal.
  rewrite alter_app_r_alt, Nat.sub_diag by lia. simpl.
  by rewrite insert_empty.
Qed.

(** C5, as stated, fails: for the builtin name [int] the lookup after
    the declaration in the inner scope returns the builtin declaration,
    not the inner object. *)
Lemma shadowing_fails_for_builtin_name :
  ~ (forall (h : declStore) (stack : IdentStack) (name : string)
            (outer inner : Object),
       InnermostBinding stack name outer ->
       Name h inner = Some name ->
       exists stack' stack'',
         addObject h inner (pushScope stack) = Some stack' /\
         findObject stack' name = Some inner /\
         popScope stack' = Some stack'' /\
         findObject stack'' name = Some outer).
Proof.
  intros H.
  destruct (H builtinStore stackIntVar "int"
              (ObjVariable varInt) (ObjVariable varInt'))
    as (stack' & stack'' & _ & Hfind & _).
  - exists [], {[ "int" := ObjVariable varInt ]}, [].
    split; [done|]. split; [done|constructor].
  - reflexivity.
  - discriminate Hfind.
Qed.

(** C5, amended: for a name that is not a builtin type name and that
    an outer scope binds to [outer]: after [pushScope] and [addObject]
    of an object [inner] of that name, [findObject] returns [inner];
    after the matching [popScope] the stack is the one before the push
    and [findObject] returns [outer] again. *)
Theorem shadowing (h : declStore) (stack : IdentStack) (name : string)
    (outer inner : Object) :
  GetBuiltinType name = None ->
  InnermostBinding stack name outer ->
  Name h inner = Some name ->
  exists stack' stack'',
    addObject h inner (pushScope stack) = Some stack' /\
    findObject stack' name = Some inner /\
    popScope stack' = Some stack'' /\
    stack'' = stack /\
    findObject stack'' name = Some outer.
Proof.
  intros Hnb Houter Hname.
  exists (stack ++ [ {[ name := inner ]} ]), stack.
  split; [by apply addObject_pushScope|].
  split; [|split; [apply popScope_snoc|split; [done|]]].
  - apply findObject_innermost; [done|].
    exists stack, {[ name := inner ]}, [].
    split; [done|]. split; [apply lookup_singleton_eq|constructor].
  - by apply findObject_innermost.
Qed.

Lemma shadowing_witness :
  exists stack' stack'',
    addObject builtinStore (ObjLabelStmt (mkLabelStmt 4 "x" None))
      (pushScope stackShadow) = Some stack' /\
    findObject stack' "x" = Some (ObjLabelStmt (mkLabelStmt 4 "x" None)) /\
    popScope stack' = Some stack'' /\
    stack'' = stackShadow /\
    findObject stack'' "x" = Some (ObjPackage (mkPackage "x")).
Proof.
  apply (shadowing builtinStore stackShadow "x"
           (ObjPackage (mkPackage "x"))
           (ObjLabelStmt (mkLabelStmt 4 "x" None))).
  - reflexivity.
  - exists [ {[ "x" := ObjVariable (mkVariable "x" None None) ]} ],
           {[ "x" := ObjPackage (mkPackage "x") ]}, [ ∅ ].
    split; [reflexivity|]. split; [reflexivity|].
    constructor; [reflexivity|constructor].
  - reflexivity.
Defined.

(** *** Lookup of a type declaration *)

(** C10, as stated, fails: for the builtin name [int], bound to a
    variable in the inner scope and to a user type declaration in the
    outer one, both lookups return the builtin declaration. *)
Lemma findTypeDecl_builtin_before_scopes :
  ~ (forall (stack : IdentStack) (name : string) (v : Object) (d : loc),
       InnermostBinding stack name v ->
       ObjectTypeOf v <> OBJECT_TYPE ->
       InnermostTypeBinding stack name d ->
       findTypeDecl stack name = Some d /\ findObject stack name = Some v).
Proof.
  intros H.
  destruct (H stackTypeUnderVar "int" (ObjVariable varInt) 20%nat)
    as [Htype Hobj].
  - exists [ {[ "int" := ObjTypeDecl 20%nat ]} ],
           {[ "int" := ObjVariable varInt ]}, [].
    split; [done|]. split; [done|constructor].
  - discriminate.
  - exists [], {[ "int" := ObjTypeDecl 20%nat ]},
           [ {[ "int" := ObjVariable varInt ]} ].
    split; [done|]. split; [done|].
    constructor; [|constructor]. intros d'. discriminate.
  - discriminate Hobj.
Qed.

(** C10, amended: for a name that is not a builtin type name,
    [findTypeDecl] passes over the bindings to objects that are not
    type declarations and searches on outwards: when the innermost
    binding of the name is to a non-type object [v] and the nearest
    binding to a type declaration, further out, is to [d],
    [findTypeDecl] returns [d] and [findObject] returns [v]. *)
Theorem findTypeDecl_skips_non_types (stack : IdentStack) (name : string)
    (v : Object) (d : loc) :
  GetBuiltinType name = None ->
  InnermostBinding stack name v ->
  ObjectTypeOf v <> OBJECT_TYPE ->
  InnermostTypeBinding stack name d ->
  findTypeDecl stack name = Some d /\ findObject stack name = Some v.
Proof.
  intros Hnb Hv _ Hd. split.
  - unfold findTypeDecl. rewrite Hnb. by apply searchTypeDecl_innermost.
  - by apply findObject_innermost.
Qed.

Lemma findTypeDecl_skips_non_types_witness :
  findTypeDecl stackCelsius "Celsius" = Some 0%nat /\
  findObject stackCelsius "Celsius"
    = Some (ObjVariable (mkVariable "Celsius" None None)).
Proof.
  apply (findTypeDecl_skips_non_types stackCelsius "Celsius").
  - reflexivity.
  - exists [ {[ "Celsius" := ObjTypeDecl 0%nat ]} ],
           {[ "Celsius" := ObjVariable (mkVariable "Celsius" None None) ]}, [].
    split; [reflexivity|]. split; [reflexivity|constructor].
  - discriminate.
  - exists [], {[ "Celsius" := ObjTypeDecl 0%nat ]},
           [ {[ "Celsius" := ObjVariable (mkVariable "Celsius" None None) ]} ].
    split; [reflexivity|]. split; [reflexivity|].
    constructor; [|constructor]. intros d'. discriminate.
Defined.

End ScopeFacts.

(** ** Ordering the top-level statements *)

Module PkgFacts.
Import Pkg Samples.

Local Open Scope string_scope.
Local Open Scope list_scope.
Local Open Scope nat_scope.

Lemma dependsOn_true (a b : TopLevelStmt) :
  dependsOn a b = true <->
  exists name, name ∈ unboundIdents a /\ name ∈ Decls b.
Proof.
  unfold dependsOn. rewrite bool_decide_eq_true, Exists_exists.
  split; intros (name & H1 & H2); by exists name.
Qed.

Lemma available_true (remaining : list TopLevelStmt) (s : TopLevelStmt) :
  available remaining s = true <->
  forall d, d ∈ remaining -> dependsOn s d = false.
Proof.
  unfold available. rewrite forallb_forall. split.
  - intros H d Hd. apply negb_true_iff, H. by apply list_elem_of_In.
  - intros H d Hd. apply negb_true_iff, H. by apply list_elem_of_In.
Qed.

Lemma available_false (remaining : list TopLevelStmt) (s : TopLevelStmt) :
  available remaining s = false ->
  exists d, d ∈ remaining /\ dependsOn s d = true.
Proof.
  unfold available. intros (d & Hd & Hdep)%AstFacts.forallb_false_inv.
  exists d. split; [done|]. by apply negb_false_iff.
Qed.

(** *** Selecting the next statement *)

Lemma selectFrom_Some remaining before candidates s rest :
  selectFrom remaining before candidates = Some (s, rest) ->
  exists l1 l2,
    candidates = l1 ++ s :: l2 /\ rest = before ++ l1 ++ l2 /\
    available remaining s = true /\
    Forall (fun x => available remaining x = false) l1.
Proof.
  revert before.
  induction candidates as [|c candidates IH]; intros before; simpl; [done|].
  destruct (available remaining c) eqn:Hc.
  - intros [= -> <-]. by exists [], candidates.
  - intros (l1 & l2 & -> & -> & Hs & Hl1)%IH.
    exists (c :: l1), l2. rewrite <- List.app_assoc. simpl.
    split; [done|]. split; [done|]. split; [done|]. by constructor.
Qed.

Lemma selectFrom_None remaining before candidates :
  selectFrom remaining before candidates = None ->
  Forall (fun x => available remaining x = false) candidates.
Proof.
  revert before.
  induction candidates as [|c candidates IH]; intros before; simpl;
    [constructor|].
  destruct (available remaining c) eqn:Hc; [done|].
  intros Hnone. constructor; eauto.
Qed.

(** The selected statement is the first available one, taken out of
    the remaining statements, whose order is kept. *)
Lemma selectAvailable_Some remaining s rest :
  selectAvailable remaining = Some (s, rest) ->
  exists l1 l2,
    remaining = l1 ++ s :: l2 /\ rest = l1 ++ l2 /\
    available remaining s = true /\
    Forall (fun x => available remaining x = false) l1.
Proof. apply selectFrom_Some. Qed.

Lemma selectAvailable_Permutation remaining s rest :
  selectAvailable remaining = Some (s, rest) -> s :: rest ≡ₚ remaining.
Proof.
  intros (l1 & l2 & -> & -> & _)%selectAvailable_Some.
  apply Permutation_middle.
Qed.

Lemma selectAvailable_None remaining :
  selectAvailable remaining = None ->
  forall s, s ∈ remaining -> available remaining s = false.
Proof.
  intros Hnone%selectFrom_None s Hs.
  rewrite Forall_forall in Hnone. auto.
Qed.

(** *** What the loop emits *)

Lemma emit_inr (n : nat) :
  forall remaining output res,
    length remaining = n ->
    emit n remaining output = inr res ->
    exists tail,
      res = output ++ tail /\ tail ≡ₚ remaining /\ Emitted tail.
Proof.
  induction n as [|n IH]; intros remaining output res Hlen; simpl.
  - intros [= <-]. apply nil_length_inv in Hlen as ->.
    exists []. rewrite app_nil_r. split; [done|]. split; [done|constructor].
  - destruct (selectAvailable remaining) as [[s rest]|] eqn:Hsel; [|done].
    intros Hres.
    pose proof (selectAvailable_Permutation _ _ _ Hsel) as Hperm.
    apply selectAvailable_Some in Hsel as (l1 & l2 & _ & _ & Hav & _).
    destruct (IH rest (output ++ [s]) res) as (tail & -> & Htail & Hem).
    { apply Permutation_length in Hperm. simpl in Hperm. lia. }
    { done. }
    exists (s :: tail). rewrite <- List.app_assoc. simpl.
    split; [done|]. split; [by rewrite Htail|].
    constructor; [|done].
    intros d Hd. apply (proj1 (available_true remaining s) Hav).
    rewrite <- Hperm, <- Htail. done.
Qed.

Lemma Emitted_DependenciesFirst (out : list TopLevelStmt) :
  Emitted out -> DependenciesFirst out.
Proof.
  induction 1 as [|s l Hs _ IH]; intros i j D S HD HS Hdep.
  - done.
  - apply dependsOn_true in Hdep.
    destruct j as [|j]; simpl in HS.
    + injection HS as <-.
      rewrite Hs in Hdep; [done|]. by eapply list_elem_of_lookup_2.
    + destruct i as [|i]; [lia|]. simpl in HD.
      apply dependsOn_true in Hdep.
      specialize (IH i j D S HD HS Hdep). lia.
Qed.

(** An ordering of the statements that puts dependencies first shows
    that their edges have no cycle. *)
Lemma tc_edge_before (stmts out : list TopLevelStmt) (x y : TopLevelStmt) :
  out ≡ₚ stmts -> DependenciesFirst out ->
  tc (edge stmts) x y ->
  forall i j, out !! i = Some x -> out !! j = Some y -> j < i.
Proof.
  intros Hperm Hfirst.
  induction 1 as [x y (Hx & Hy & Hdep)|x z y (Hx & Hz & Hdep) _ IH];
    intros i j Hi Hj.
  - apply (Hfirst j i y x); [done|done|]. by apply dependsOn_true.
  - rewrite <- Hperm in Hz.
    apply list_elem_of_lookup in Hz as [k Hk].
    specialize (IH k j Hk Hj).
    assert (k < i); [|lia].
    apply (Hfirst k i z x); [done|done|]. by apply dependsOn_true.
Qed.

Lemma tc_edge_source (stmts : list TopLevelStmt) (x y : TopLevelStmt) :
  tc (edge stmts) x y -> x ∈ stmts.
Proof. by destruct 1 as [x y (Hx & _)|x z y (Hx & _) _]. Qed.

Lemma DependenciesFirst_Acyclic (stmts out : list TopLevelStmt) :
  out ≡ₚ stmts -> DependenciesFirst out -> Acyclic stmts.
Proof.
  intros Hperm Hfirst s Hcycle.
  pose proof (tc_edge_source _ _ _ Hcycle) as Hs.
  rewrite <- Hperm in Hs.
  apply list_elem_of_lookup in Hs as [i Hi].
  pose proof (tc_edge_before _ _ _ _ Hperm Hfirst Hcycle i i Hi Hi). lia.
Qed.

(** *** Acyclic edges leave a statement to select *)

(** A transitive relation without loops has a minimal element in every
    non-empty list.  The relation need not be decidable: the statement
    is the refutation of there being none. *)
Lemma no_minimal_absurd {A} (R : relation A) `{!Transitive R} (l : list A) :
  (forall x, ~ R x x) ->
  l <> [] ->
  ~ (forall m, m ∈ l -> ~ (forall y, y ∈ l -> ~ R m y)).
Proof.
  intros Hirr.
  induction l as [|a l IH]; intros Hne Hnone; [done|].
  destruct (decide (l = [])) as [->|Hl].
  - apply (Hnone a); [by left|].
    intros y ->%list_elem_of_singleton. apply Hirr.
  - apply IH; [done|]. intros m Hm Hmin.
    apply (Hnone a); [by left|].
    intros y [->|Hy]%elem_of_cons Hay; [by apply (Hirr a)|].
    apply (Hnone m); [by right|].
    intros z [->|Hz]%elem_of_cons Hmz.
    + apply (Hmin y Hy). by transitivity a.
    + by apply (Hmin z Hz).
Qed.

Lemma exists_available (stmts remaining : list TopLevelStmt) :
  Acyclic stmts ->
  remaining <> [] ->
  (forall x, x ∈ remaining -> x ∈ stmts) ->
  exists s, s ∈ remaining /\ available remaining s = true.
Proof.
  intros Hacyc Hne Hsub.
  destruct (decide (Exists (fun s => available remaining s = true) remaining))
    as [Hex|Hno].
  { apply Exists_exists in Hex. done. }
  exfalso.
  apply (no_minimal_absurd (tc (edge stmts)) remaining Hacyc Hne).
  intros m Hm Hmin.
  destruct (available remaining m) eqn:Hav.
  - apply Hno, Exists_exists. by exists m.
  - apply available_false in Hav as (d & Hd & Hdep).
    apply (Hmin d Hd). apply tc_once. repeat split; auto.
Qed.

Lemma emit_total (stmts : list TopLevelStmt) (n : nat) :
  Acyclic stmts ->
  forall remaining output,
    length remaining = n ->
    (forall x, x ∈ remaining -> x ∈ stmts) ->
    exists res, emit n remaining output = inr res.
Proof.
  intros Hacyc.
  induction n as [|n IH]; intros remaining output Hlen Hsub; simpl; [eauto|].
  destruct (selectAvailable remaining) as [[s rest]|] eqn:Hsel.
  - pose proof (selectAvailable_Permutation _ _ _ Hsel) as Hperm.
    apply IH.
    + apply Permutation_length in Hperm. simpl in Hperm. lia.
    + intros x Hx. apply Hsub. rewrite <- Hperm. by right.
  - destruct (exists_available stmts remaining) as (s & Hs & Hav); try done.
    { by intros ->. }
    rewrite (selectAvailable_None _ Hsel s Hs) in Hav. done.
Qed.

(** Whatever the edges, an ordering that the sort returns is a
    permutation of the input that puts dependencies first. *)
Lemma topoSort_inr (stmts out : list TopLevelStmt) :
  topoSort stmts = inr out ->
  out ≡ₚ stmts /\ DependenciesFirst out.
Proof.
  intros (tail & -> & Hperm & Hem)%emit_inr; [|done].
  simpl. split; [done|]. by apply Emitted_DependenciesFirst.
Qed.

(** C3: when the declare/depend edges of the statements are acyclic,
    [topoSort] succeeds; the ordering it returns is a permutation of
    the input, of equal length, and wherever the unbound set of a
    statement [S] meets the declared set of a statement [D], [D] occurs
    before [S] in it. *)
Theorem topoSort_acyclic (stmts : list TopLevelStmt) :
  Acyclic stmts ->
  exists out,
    topoSort stmts = inr out /\
    out ≡ₚ stmts /\
    length out = length stmts /\
    forall (i j : nat) (D S : TopLevelStmt),
      out !! i = Some D -> out !! j = Some S ->
      (exists name, name ∈ unboundIdents S /\ name ∈ Decls D) ->
      i < j.
Proof.
  intros Hacyc.
  destruct (emit_total stmts (length stmts) Hacyc stmts []) as [out Hout];
    [done|done|].
  exists out. split; [done|].
  destruct (topoSort_inr _ _ Hout) as [Hperm Hfirst].
  split; [done|]. split; [by apply Permutation_length|]. exact Hfirst.
Qed.

(** C4: when the declare/depend edges of the statements contain a
    cycle, [topoSort] returns the dependency-cycle error and no
    ordering. *)
Theorem topoSort_cyclic (stmts : list TopLevelStmt) :
  Cyclic stmts ->
  (exists names, topoSort stmts = inl (DependencyCycle names)) /\
  (forall out, topoSort stmts <> inr out).
Proof.
  intros [s Hcycle].
  assert (forall out, topoSort stmts <> inr out) as Hno.
  { intros out [Hperm Hfirst]%topoSort_inr.
    by apply (DependenciesFirst_Acyclic _ _ Hperm Hfirst s). }
  split; [|done].
  destruct (topoSort stmts) as [[names]|out]; [eauto|].
  by destruct (Hno out).
Qed.

(** A rank that falls along every edge shows that there is no cycle. *)
Lemma Acyclic_of_rank (stmts : list TopLevelStmt) (rank : TopLevelStmt -> nat) :
  Forall (fun a =>
            Forall (fun b => dependsOn a b = true -> rank b < rank a) stmts)
         stmts ->
  Acyclic stmts.
Proof.
  intros Hrank.
  assert (forall x y, tc (edge stmts) x y -> rank y < rank x) as Hfall.
  { induction 1 as [x y (Hx & Hy & Hdep)|x z y (Hx & Hz & Hdep) _ IH].
    - rewrite Forall_forall in Hrank. specialize (Hrank x Hx).
      rewrite Forall_forall in Hrank. auto.
    - rewrite Forall_forall in Hrank. specialize (Hrank x Hx).
      rewrite Forall_forall in Hrank. specialize (Hrank z Hz Hdep). lia. }
  intros s Hs%Hfall. lia.
Qed.

Lemma case0_Acyclic : Acyclic case0.
Proof.
  apply (Acyclic_of_rank case0 rank0).
  apply (bool_decide_unpack _). vm_compute. exact I.
Defined.

Lemma topoSort_acyclic_witness :
  exists out,
    topoSort case0 = inr out /\
    out ≡ₚ case0 /\
    length out = length case0 /\
    forall (i j : nat) (D S : TopLevelStmt),
      out !! i = Some D -> out !! j = Some S ->
      (exists name, name ∈ unboundIdents S /\ name ∈ Decls D) ->
      i < j.
Proof. exact (topoSort_acyclic case0 case0_Acyclic). Defined.

Local Ltac edge_holds :=
  split; [|split];
  [repeat first [apply list_elem_of_here | apply list_elem_of_further] ..
  | reflexivity].

Lemma case4_Cyclic : Cyclic case4.
Proof.
  exists (node "1" ["a"] ["b"]).
  apply tc_l with (node "2" ["b"] ["c"]); [edge_holds|].
  apply tc_l with (node "3" ["c"] ["a"]); [edge_holds|].
  apply tc_once. edge_holds.
Defined.

Lemma topoSort_cyclic_witness :
  (exists names, topoSort case4 = inl (DependencyCycle names)) /\
  (forall out, topoSort case4 <> inr out).
Proof. exact (topoSort_cyclic case4 case4_Cyclic). Defined.

(** *** The cases of [TestStmtsSort] *)

Example TestStmtsSort_case0 : order (topoSort case0) = Some ["3"; "2"; "1"].
Proof. reflexivity. Qed.

Example TestStmtsSort_case1 : order (topoSort case1) = Some ["1"; "2"; "3"].
Proof. reflexivity. Qed.

Example TestStmtsSort_case2 : order (topoSort case2) = Some ["1"; "2"; "3"].
Proof. reflexivity. Qed.

Example TestStmtsSort_case3 : order (topoSort case3) = Some ["1"; "2"; "3"].
Proof. reflexivity. Qed.

Example TestStmtsSort_case4 : order (topoSort case4) = None.
Proof. reflexivity. Qed.

Example TestStmtsSort_case5 : order (topoSort case5) = None.
Proof. reflexivity. Qed.

(** A statement that uses the name it declares sorts alone. *)
Example topoSort_selfReference :
  order (topoSort selfReference) = Some ["main"].
Proof. reflexivity. Qed.

(** A name declared nowhere makes no edge and no failure. *)
Example topoSort_undeclaredReference :
  order (topoSort undeclaredReference) = Some ["1"; "2"].
Proof. reflexivity. Qed.

(** The error names the declarations of the statements left over. *)
Example TestStmtsSort_case5_names :
  topoSort case5 = inl (DependencyCycle ["a"; "aa"; "b"; "c"]).
Proof. reflexivity. Qed.

End PkgFacts.

(** ** More about the identifier stack *)

Module ScopeMore.
Import Ast Scope Samples ScopeFacts.

Local Open Scope string_scope.
Local Open Scope list_scope.

(** *** What the search loops return *)

Lemma searchObject_Some (name : string) (stack : IdentStack) (o : Object) :
  searchObject stack name (length stack) = Some o ->
  InnermostBinding stack name o.
Proof.
  induction stack as [|scope stack IH] using rev_ind; [done|].
  rewrite searchObject_snoc.
  destruct (scope !! name) as [v|] eqn:Hs.
  - intros [= ->]. exists stack, scope, []. by repeat split.
  - intros (outer & sc & inner & -> & Hsc & Hin)%IH.
    exists outer, sc, (inner ++ [scope]).
    split; [by rewrite <- List.app_assoc|]. split; [done|].
    apply Forall_app. split; [done|]. by apply Forall_singleton.
Qed.

Lemma searchObject_None (name : string) (stack : IdentStack) :
  searchObject stack name (length stack) = None -> Unbound stack name.
Proof.
  induction stack as [|scope stack IH] using rev_ind; [constructor|].
  rewrite searchObject_snoc.
  destruct (scope !! name) as [v|] eqn:Hs; [done|].
  intros H. apply Forall_app. split; [by apply IH|].
  by apply Forall_singleton.
Qed.

Lemma searchTypeDecl_Some (name : string) (stack : IdentStack) (d : loc) :
  searchTypeDecl stack name (length stack) = Some d ->
  InnermostTypeBinding stack name d.
Proof.
  induction stack as [|scope stack IH] using rev_ind; [done|].
  rewrite searchTypeDecl_snoc. intros H.
  assert ((scope !! name = Some (ObjTypeDecl d)) \/
          ((forall d', scope !! name <> Some (ObjTypeDecl d')) /\
           searchTypeDecl stack name (length stack) = Some d)) as [Hs|[Hs Hrec]].
  { destruct (scope !! name) as [[| |d'|]|]; try (right; by split).
    left. congruence. }
  - exists stack, scope, []. by repeat split.
  - destruct (IH Hrec) as (outer & sc & inner & -> & Hsc & Hin).
    exists outer, sc, (inner ++ [scope]).
    split; [by rewrite <- List.app_assoc|]. split; [done|].
    apply Forall_app. split; [done|]. by apply Forall_singleton.
Qed.

Lemma searchTypeDecl_None (name : string) (stack : IdentStack) :
  searchTypeDecl stack name (length stack) = None ->
  NoTypeBinding stack name.
Proof.
  induction stack as [|scope stack IH] using rev_ind; [constructor|].
  rewrite searchTypeDecl_snoc. intros H.
  apply Forall_app.
  destruct (scope !! name) as [[| |d'|]|] eqn:Hs; try done;
    (split; [by apply IH|]); apply Forall_singleton; intros d; by rewrite Hs.
Qed.

Lemma searchTypeDecl_no_binding (name : string) (stack : IdentStack) :
  NoTypeBinding stack name ->
  searchTypeDecl stack name (length stack) = None.
Proof. intros H. exact (searchTypeDecl_pass name [] stack H). Qed.

Lemma Unbound_NoTypeBinding (name : string) (stack : IdentStack) :
  Unbound stack name -> NoTypeBinding stack name.
Proof.
  intros H. eapply Forall_impl; [exact H|].
  intros scope Hs d. by rewrite Hs.
Qed.

(** X1: [popScope] undoes [pushScope], and the pushed scope hides
    nothing: every lookup gives what it gave before the push. *)
Theorem pushScope_transparent (stack : IdentStack) :
  popScope (pushScope stack) = Some stack /\
  forall name,
    findObject (pushScope stack) name = findObject stack name /\
    findTypeDecl (pushScope stack) name = findTypeDecl stack name.
Proof.
  split; [apply popScope_snoc|]. intros name.
  unfold findObject, findTypeDecl, pushScope.
  rewrite searchObject_snoc, searchTypeDecl_snoc, lookup_empty. done.
Qed.

(** X2: on the empty stack, and only there, [popScope] panics;
    [addObject] panics there too; a stack is never empty after
    [pushScope]. *)
Theorem empty_stack_panics (stack : IdentStack) :
  (empty stack = true <-> popScope stack = None) /\
  (empty stack = true -> forall h v, addObject h v stack = None) /\
  empty (pushScope stack) = false.
Proof.
  unfold empty, popScope, addObject, pushScope.
  rewrite length_app, Nat.add_1_r.
  destruct stack as [|scope stack]; simpl.
  - split; [done|]. split; done.
  - split; [split; intros [=]|]. split; [intros [=]|done].
Qed.

Lemma addObject_snoc h (v : Object) (name : string)
    (outer : IdentStack) (scope : gmap string Object) :
  Name h v = Some name ->
  addObject h v (outer ++ [scope]) = Some (outer ++ [<[name := v]> scope]).
Proof.
  intros Hname. unfold addObject.
  rewrite length_app, Nat.add_1_r, Hname. simpl. f_equal.
  by rewrite alter_app_r_alt, Nat.sub_diag by lia.
Qed.

Lemma addObject_Some h (v : Object) (stack stack' : IdentStack) :
  addObject h v stack = Some stack' ->
  exists name outer scope,
    Name h v = Some name /\ stack = outer ++ [scope] /\
    stack' = outer ++ [<[name := v]> scope].
Proof.
  destruct stack as [|scope stack _] using rev_ind; [done|].
  destruct (Name h v) as [name|] eqn:Hname.
  - rewrite (addObject_snoc h v name) by done. intros [= <-]. eauto 6.
  - unfold addObject. rewrite length_app, Nat.add_1_r, Hname. done.
Qed.

(** X3: [addObject] rewrites the innermost scope only: the number of
    scopes is unchanged and the scopes that [popScope] leaves are the
    same as before the declaration. *)
Theorem addObject_innermost_only h (v : Object) (stack stack' : IdentStack) :
  addObject h v stack = Some stack' ->
  length stack' = length stack /\
  popScope stack' = popScope stack /\
  exists name scope,
    Name h v = Some name /\ last stack = Some scope /\
    last stack' = Some (<[name := v]> scope).
Proof.
  intros (name & outer & scope & Hname & -> & ->)%addObject_Some.
  rewrite !length_app, !popScope_snoc, !last_snoc.
  split; [done|]. split; [done|]. by exists name, scope.
Qed.

Lemma addObject_innermost_only_witness :
  popScope (stackShadow ++ [ {[ "y" := ObjPackage (mkPackage "y") ]} ])
  = popScope (stackShadow ++ [ ∅ ]).
Proof.
  apply (addObject_innermost_only builtinStore (ObjPackage (mkPackage "y"))
           (stackShadow ++ [ ∅ ])).
  reflexivity.
Defined.

(** X4: after [addObject], the name of the object resolves to it
    unless it is a builtin type name, and every other name resolves as
    before. *)
Theorem addObject_lookup h (v : Object) (stack stack' : IdentStack)
    (name : string) :
  addObject h v stack = Some stack' ->
  Name h v = Some name ->
  (GetBuiltinType name = None -> findObject stack' name = Some v) /\
  forall name', name' <> name ->
    findObject stack' name' = findObject stack name' /\
    findTypeDecl stack' name' = findTypeDecl stack name'.
Proof.
  intros (name0 & outer & scope & Hname0 & -> & ->)%addObject_Some Hname.
  assert (name0 = name) as -> by congruence.
  split.
  - intros Hnb. apply findObject_innermost; [done|].
    exists outer, (<[name := v]> scope), [].
    split; [done|]. split; [apply lookup_insert_eq|constructor].
  - intros name' Hne. unfold findObject, findTypeDecl.
    rewrite !searchObject_snoc, !searchTypeDecl_snoc.
    by rewrite lookup_insert_ne.
Qed.

Lemma addObject_lookup_witness :
  findObject (stackShadow ++ [ {[ "y" := ObjPackage (mkPackage "y") ]} ]) "y"
  = Some (ObjPackage (mkPackage "y")).
Proof.
  apply (addObject_lookup builtinStore (ObjPackage (mkPackage "y"))
           (stackShadow ++ [ ∅ ]) _ "y"); reflexivity.
Defined.

(** X5: the stack does not reject a duplicate: on a stack that has a
    scope, a second [addObject] of the same name in the same scope
    returns as the first did, and silently replaces the first: the
    innermost scope then binds the name to the second object,
    [findObject] returns the second object unless the name is a builtin
    type name, and the stack is the one that adding the second object
    alone gives. *)
Theorem addObject_overwrites h (v1 v2 : Object) (stack : IdentStack)
    (name : string) :
  Name h v1 = Some name ->
  Name h v2 = Some name ->
  stack <> [] ->
  exists stack1 stack2,
    addObject h v1 stack = Some stack1 /\
    addObject h v2 stack1 = Some stack2 /\
    addObject h v2 stack = Some stack2 /\
    (last stack2 ≫= fun scope => scope !! name) = Some v2 /\
    (GetBuiltinType name = None -> findObject stack2 name = Some v2).
Proof.
  intros H1 H2 Hne.
  destruct stack as [|scope outer _] using rev_ind; [done|].
  exists (outer ++ [<[name := v1]> scope]), (outer ++ [<[name := v2]> scope]).
  split; [by apply addObject_snoc|].
  split; [by rewrite (addObject_snoc h v2 name), insert_insert_eq|].
  split; [by apply addObject_snoc|].
  split.
  - rewrite last_snoc. simpl. apply lookup_insert_eq.
  - intros Hnb. apply findObject_innermost; [done|].
    exists outer, (<[name := v2]> scope), [].
    split; [done|]. split; [apply lookup_insert_eq|constructor].
Qed.

Lemma addObject_overwrites_witness :
  exists stack1 stack2,
    addObject builtinStore (ObjPackage (mkPackage "y")) stackShadow
      = Some stack1 /\
    addObject builtinStore (ObjVariable (mkVariable "y" None None)) stack1
      = Some stack2 /\
    addObject builtinStore (ObjVariable (mkVariable "y" None None)) stackShadow
      = Some stack2 /\
    (last stack2 ≫= fun scope => scope !! "y")
      = Some (ObjVariable (mkVariable "y" None None)) /\
    (GetBuiltinType "y" = None ->
     findObject stack2 "y" = Some (ObjVariable (mkVariable "y" None None))).
Proof.
  apply (addObject_overwrites builtinStore (ObjPackage (mkPackage "y"))
           (ObjVariable (mkVariable "y" None None)) stackShadow "y").
  - reflexivity.
  - reflexivity.
  - discriminate.
Defined.

(** X6: [findObject] returns nil exactly when the name is neither a
    builtin type name nor bound in any scope of the stack. *)
Theorem findObject_nil_iff (stack : IdentStack) (name : string) :
  findObject stack name = None <->
  GetBuiltinType name = None /\ Unbound stack name.
Proof.
  unfold findObject. split.
  - destruct (GetBuiltinType name); [done|].
    intros H%searchObject_None. done.
  - intros [-> H]. by apply searchObject_unbound.
Qed.

(** X7: an object that [findObject] returns is either the builtin
    declaration of the name or, for a name that is not a builtin, the
    binding of the name in the innermost scope that binds it. *)
Theorem findObject_sound (stack : IdentStack) (name : string) (o : Object) :
  findObject stack name = Some o ->
  (exists d, GetBuiltinType name = Some d /\ o = ObjTypeDecl d) \/
  (GetBuiltinType name = None /\ InnermostBinding stack name o).
Proof.
  unfold findObject.
  destruct (GetBuiltinType name) as [d|].
  - intros [= <-]. left. by exists d.
  - intros H%searchObject_Some. by right.
Qed.

Lemma findObject_sound_witness :
  (exists d, GetBuiltinType "x" = Some d /\
             ObjPackage (mkPackage "x") = ObjTypeDecl d) \/
  (GetBuiltinType "x" = None /\
   InnermostBinding stackShadow "x" (ObjPackage (mkPackage "x"))).
Proof.
  apply (findObject_sound stackShadow "x"). reflexivity.
Defined.

(** X8: the two lookups agree: when [findObject] returns a type
    declaration, [findTypeDecl] returns the same declaration, and when
    [findObject] returns nil so does [findTypeDecl]. *)
Theorem findTypeDecl_agrees (stack : IdentStack) (name : string) :
  (forall d, findObject stack name = Some (ObjTypeDecl d) ->
     findTypeDecl stack name = Some d) /\
  (findObject stack name = None -> findTypeDecl stack name = None).
Proof.
  unfold findObject, findTypeDecl.
  destruct (GetBuiltinType name) as [decl|]; split; try done.
  - by intros d [= ->].
  - intros d (outer & scope & inner & -> & Hs & Hin)%searchObject_Some.
    apply searchTypeDecl_innermost.
    exists outer, scope, inner. split; [done|]. split; [done|].
    by apply Unbound_NoTypeBinding.
  - intros H%searchObject_None.
    by apply searchTypeDecl_no_binding, Unbound_NoTypeBinding.
Qed.

Lemma findTypeDecl_agrees_witness :
  findTypeDecl stackTypeUnderVar "string" = Some 13%nat /\
  findTypeDecl stackShadow "y" = None.
Proof.
  split.
  - apply (proj1 (findTypeDecl_agrees stackTypeUnderVar "string")).
    reflexivity.
  - apply (proj2 (findTypeDecl_agrees stackShadow "y")). reflexivity.
Defined.

(** X9: [findTypeDecl] returns nil exactly when the name is not a
    builtin type name and no scope binds it to a type declaration; a
    declaration that it returns is the builtin one or the nearest
    binding of the name to a type declaration. *)
Theorem findTypeDecl_result (stack : IdentStack) (name : string) :
  (findTypeDecl stack name = None <->
     GetBuiltinType name = None /\ NoTypeBinding stack name) /\
  (forall d, findTypeDecl stack name = Some d ->
     GetBuiltinType name = Some d \/
     (GetBuiltinType name = None /\ InnermostTypeBinding stack name d)).
Proof.
  unfold findTypeDecl.
  destruct (GetBuiltinType name) as [decl|].
  - split; [split; [done|by intros [? _]]|]. intros d [= ->]. by left.
  - split.
    + split.
      * intros H%searchTypeDecl_None. done.
      * intros [_ H]. by apply searchTypeDecl_no_binding.
    + intros d H%searchTypeDecl_Some. by right.
Qed.

Lemma findTypeDecl_result_witness :
  GetBuiltinType "Celsius" = Some 0%nat \/
  (GetBuiltinType "Celsius" = None /\
   InnermostTypeBinding stackCelsius "Celsius" 0%nat).
Proof.
  apply (proj2 (findTypeDecl_result stackCelsius "Celsius")). reflexivity.
Defined.

(** X10: leaving a scope changes the lookup of no name that the scope
    left does not bind. *)
Theorem popScope_keeps_outer_names (stack stack' : IdentStack)
    (scope : gmap string Object) (name : string) :
  popScope stack = Some stack' ->
  last stack = Some scope ->
  scope !! name = None ->
  findObject stack' name = findObject stack name /\
  findTypeDecl stack' name = findTypeDecl stack name.
Proof.
  destruct stack as [|sc stack _] using rev_ind; [done|].
  rewrite popScope_snoc, last_snoc. intros [= <-] [= ->] Hs.
  unfold findObject, findTypeDecl.
  by rewrite searchObject_snoc, searchTypeDecl_snoc, Hs.
Qed.

Lemma popScope_keeps_outer_names_witness :
  findObject [ {[ "int" := ObjTypeDecl 20%nat ]} ] "x"
    = findObject stackTypeUnderVar "x" /\
  findTypeDecl [ {[ "int" := ObjTypeDecl 20%nat ]} ] "x"
    = findTypeDecl stackTypeUnderVar "x".
Proof.
  apply (popScope_keeps_outer_names stackTypeUnderVar _
           {[ "int" := ObjVariable varInt ]} "x"); reflexivity.
Defined.

(** X11: on a stack that has a root scope, [eraseAllExceptBuiltins]
    leaves that scope alone, whatever the inner scopes held: a name
    that is not a builtin then resolves to what the root scope binds it
    to, and erasing again changes nothing. *)
Theorem eraseAllExceptBuiltins_root (stack : IdentStack)
    (root : gmap string Object) :
  stack !! 0%nat = Some root ->
  eraseAllExceptBuiltins stack = ResliceTo [root] /\
  eraseAllExceptBuiltins [root] = ResliceTo [root] /\
  forall name, GetBuiltinType name = None ->
    findObject [root] name = root !! name /\
    findTypeDecl [root] name =
      match root !! name with
      | Some (ObjTypeDecl d) => Some d
      | _ => None
      end.
Proof.
  destruct stack as [|r rest]; [done|]. intros [= ->].
  split; [done|]. split; [done|].
  intros name Hnb. unfold findObject, findTypeDecl. rewrite Hnb. simpl.
  split.
  - by destruct (root !! name).
  - by destruct (root !! name) as [[]|].
Qed.

Lemma eraseAllExceptBuiltins_root_witness :
  eraseAllExceptBuiltins stackShadow
  = ResliceTo [ {[ "x" := ObjVariable (mkVariable "x" None None) ]} ].
Proof.
  apply (eraseAllExceptBuiltins_root stackShadow). reflexivity.
Defined.

(** X12: the stack operations keep every binding filed under the name
    of its object: if that holds of a stack, it holds after
    [pushScope], after [popScope] and after [addObject]. *)
Theorem WellKeyed_preserved h (stack : IdentStack) :
  WellKeyed h stack ->
  WellKeyed h (pushScope stack) /\
  (forall stack', popScope stack = Some stack' -> WellKeyed h stack') /\
  (forall v stack', addObject h v stack = Some stack' -> WellKeyed h stack').
Proof.
  intros Hwk. split; [|split].
  - intros scope key o [Hin| ->%list_elem_of_singleton]%elem_of_app Hs.
    + by apply (Hwk scope).
    + by rewrite lookup_empty in Hs.
  - intros stack' Hpop scope key o Hin Hs.
    destruct stack as [|sc stack _] using rev_ind; [done|].
    rewrite popScope_snoc in Hpop. injection Hpop as <-.
    apply (Hwk scope); [|done]. apply elem_of_app. by left.
  - intros v stack' (name & outer & sc & Hname & -> & ->)%addObject_Some.
    intros scope key o [Hin| ->%list_elem_of_singleton]%elem_of_app Hs.
    + apply (Hwk scope); [|done]. apply elem_of_app. by left.
    + destruct (decide (name = key)) as [->|Hne].
      * rewrite lookup_insert_eq in Hs. by injection Hs as <-.
      * rewrite lookup_insert_ne in Hs by done.
        apply (Hwk sc); [|done]. apply elem_of_app. right. by left.
Qed.

Lemma WellKeyed_Forall h (stack : IdentStack) :
  Forall (map_Forall (fun key o => Name h o = Some key)) stack ->
  WellKeyed h stack.
Proof.
  intros Hall scope key o Hin Hs.
  rewrite Forall_forall in Hall. by apply (Hall scope Hin key o).
Qed.

Lemma stackShadow_WellKeyed : WellKeyed builtinStore stackShadow.
Proof.
  apply WellKeyed_Forall, (bool_decide_unpack _). vm_compute. exact I.
Qed.

Lemma WellKeyed_preserved_witness :
  WellKeyed builtinStore (pushScope stackShadow).
Proof.
  destruct (WellKeyed_preserved builtinStore stackShadow) as [Hpush _].
  - apply stackShadow_WellKeyed.
  - exact Hpush.
Defined.

(** X13: on a stack whose bindings are filed under the names of their
    objects, in a store that holds the builtin declarations, the object
    that [findObject] returns for a name bears that name. *)
Theorem findObject_named h (stack : IdentStack) (name : string) (o : Object) :
  WellKeyed h stack ->
  builtinStore ⊆ h ->
  findObject stack name = Some o ->
  Name h o = Some name.
Proof.
  intros Hwk Hsub. unfold findObject.
  destruct (GetBuiltinType name) as [d|] eqn:Hb.
  - intros [= <-].
    apply AstFacts.GetBuiltinType_decl in Hb as (decl & Hd & Hn & _).
    simpl. by rewrite (lookup_weaken _ _ _ _ Hd Hsub), <- Hn.
  - intros (outer & scope & inner & -> & Hs & _)%searchObject_Some.
    apply (Hwk scope); [|done].
    apply elem_of_app. right. by left.
Qed.

Lemma findObject_named_witness :
  Name builtinStore (ObjPackage (mkPackage "x")) = Some "x" /\
  Name builtinStore (ObjTypeDecl 7%nat) = Some "int".
Proof.
  split.
  - apply (findObject_named builtinStore stackShadow "x").
    + apply stackShadow_WellKeyed.
    + reflexivity.
    + reflexivity.
  - apply (findObject_named builtinStore stackShadow "int").
    + apply stackShadow_WellKeyed.
    + reflexivity.
    + reflexivity.
Defined.

End ScopeMore.

(** ** More about the declarations and the type algebra *)

Module AstMore.
Import Ast Samples AstFacts.

Local Open Scope string_scope.
Local Open Scope list_scope.

(** *** [Type()] and [RootType()] together *)

(** X14: the type that [Type()] builds for a declaration is always
    Known, and it is a simple type or a custom type, even when the
    declaration aliases an Unknown. *)
Theorem TypeDecl_Type_Known (h : declStore) (o : loc) (t : Type_) :
  TypeDecl_Type h o = Some t ->
  Known t = true /\ (KindOf t = KIND_SIMPLE \/ KindOf t = KIND_CUSTOM).
Proof.
  unfold TypeDecl_Type. destruct (h !! o) as [d|]; [|done]. simpl.
  intros [= <-]. destruct (AliasedType d); simpl; auto.
Qed.

Lemma TypeDecl_Type_Known_witness :
  Known (CustomType "T" "" 0%nat) = true /\
  (KindOf (CustomType "T" "" 0%nat) = KIND_SIMPLE \/
   KindOf (CustomType "T" "" 0%nat) = KIND_CUSTOM).
Proof.
  apply (TypeDecl_Type_Known storeAliasUnknown 0%nat). reflexivity.
Defined.

(** X15: for a declaration that aliases a type which is not itself a
    named type, [Type()] builds a custom type over the declaration and
    [RootType()] of that custom type gives the aliased type back, with
    no turn of its loop. *)
Theorem RootType_of_TypeDecl_Type (h : declStore) (o : loc) (d : TypeDecl)
    (a : Type_) :
  h !! o = Some d ->
  AliasedType d = Some a ->
  KindOf a <> KIND_CUSTOM ->
  TypeDecl_Type h o = Some (CustomType (td_name d) "" o) /\
  forall fuel, RootType h fuel o = Returns a.
Proof.
  intros Hd Ha Hk. unfold TypeDecl_Type, RootType. rewrite Hd. simpl.
  rewrite Ha. split; [done|]. intros fuel. by apply rootLoop_not_custom.
Qed.

Lemma RootType_of_TypeDecl_Type_witness :
  TypeDecl_Type storeTwoAliases 0%nat = Some (CustomType "Celsius" "" 0%nat) /\
  forall fuel,
    RootType storeTwoAliases fuel 0%nat = Returns (SimpleType SIMPLE_TYPE_INT).
Proof.
  apply (RootType_of_TypeDecl_Type storeTwoAliases 0%nat
           (mkTypeDecl 0 "Celsius" (Some (SimpleType SIMPLE_TYPE_INT)))).
  - reflexivity.
  - reflexivity.
  - discriminate.
Defined.

(** One turn of the loop: the root of a declaration that aliases a
    custom type is the root of the declaration of that type. *)
Lemma RootType_step h fuel decl d name pkg next :
  h !! decl = Some d ->
  AliasedType d = Some (CustomType name pkg next) ->
  RootType h (S fuel) decl = RootType h fuel next.
Proof.
  intros Hd Ha. unfold RootType. rewrite Hd, Ha. simpl.
  destruct (h !! next); [done|]. done.
Qed.

Lemma RootType_zero_alias h decl d name pkg next :
  h !! decl = Some d ->
  AliasedType d = Some (CustomType name pkg next) ->
  RootType h 0 decl = OutOfFuel.
Proof. intros Hd Ha. unfold RootType. by rewrite Hd, Ha. Qed.

(** The cases of [RootType] at a declaration. *)
Lemma RootType_cases h fuel decl :
  (h !! decl = None /\ RootType h fuel decl = Panics) \/
  (exists d, h !! decl = Some d /\ AliasedType d = None /\
             RootType h fuel decl = Panics) \/
  (exists d t, h !! decl = Some d /\ AliasedType d = Some t /\
               KindOf t <> KIND_CUSTOM /\ RootType h fuel decl = Returns t) \/
  (exists d name pkg next,
     h !! decl = Some d /\ AliasedType d = Some (CustomType name pkg next)).
Proof.
  destruct (h !! decl) as [d|] eqn:Hd.
  - destruct (AliasedType d) as [t|] eqn:Ha.
    + destruct (decide (KindOf t = KIND_CUSTOM)) as [Hk|Hk].
      * destruct t; try discriminate Hk. right. right. right. eauto 8.
      * right. right. left. exists d, t.
        repeat split; try done.
        unfold RootType. rewrite Hd, Ha. by apply rootLoop_not_custom.
    + right. left. exists d. repeat split; try done.
      by apply RootType_nil_alias with d.
  - left. split; [done|]. unfold RootType. by rewrite Hd.
Qed.

Lemma RootType_Returns_chain h (fuel : nat) :
  forall decl root,
    RootType h fuel decl = Returns root ->
    exists path, AliasChain h decl path root /\ (length path <= S fuel)%nat.
Proof.
  induction fuel as [|fuel IH]; intros decl root Hret.
  - destruct (RootType_cases h 0 decl)
      as [[_ H]|[(d & _ & _ & H)|[(d & t & Hd & Ha & Hk & H)|
          (d & name & pkg & next & Hd & Ha)]]]; try congruence.
    + assert (t = root) as -> by congruence.
      exists [decl]. split; [by eapply chain_root|simpl; lia].
    + by rewrite (RootType_zero_alias _ _ _ _ _ _ Hd Ha) in Hret.
  - destruct (RootType_cases h (S fuel) decl)
      as [[_ H]|[(d & _ & _ & H)|[(d & t & Hd & Ha & Hk & H)|
          (d & name & pkg & next & Hd & Ha)]]]; try congruence.
    + assert (t = root) as -> by congruence.
      exists [decl]. split; [by eapply chain_root|simpl; lia].
    + rewrite (RootType_step _ _ _ _ _ _ _ Hd Ha) in Hret.
      destruct (IH next root Hret) as (path & Hc & Hlen).
      exists (decl :: path). split; [by eapply chain_alias|simpl; lia].
Qed.

(** X16: a type that [RootType()] returns is never a custom type; it
    is the type at the end of the chain of aliases from the
    declaration, the chain has at most one declaration more than the
    loop made turns, and the same type is returned however many more
    turns the loop is given. *)
Theorem RootType_sound (h : declStore) (fuel : nat) (decl : loc)
    (root : Type_) :
  RootType h fuel decl = Returns root ->
  KindOf root <> KIND_CUSTOM /\
  (exists path,
     AliasChain h decl path root /\ (length path <= S fuel)%nat) /\
  (forall fuel', (fuel <= fuel')%nat -> RootType h fuel' decl = Returns root).
Proof.
  intros Hret.
  destruct (RootType_Returns_chain h fuel decl root Hret)
    as (path & Hc & Hlen).
  split; [by eapply AliasChain_root_kind|].
  split; [by exists path|].
  intros fuel' Hle.
  destruct (decide (fuel' = fuel)) as [->|Hne]; [done|].
  apply (RootType_chain _ _ _ _ Hc). lia.
Qed.

Lemma RootType_sound_witness :
  KindOf (SimpleType SIMPLE_TYPE_INT) <> KIND_CUSTOM /\
  (exists path,
     AliasChain storeTwoAliases 1%nat path (SimpleType SIMPLE_TYPE_INT) /\
     (length path <= 2)%nat) /\
  (forall fuel', (1 <= fuel')%nat ->
     RootType storeTwoAliases fuel' 1%nat
       = Returns (SimpleType SIMPLE_TYPE_INT)).
Proof.
  apply (RootType_sound storeTwoAliases 1 1%nat). reflexivity.
Defined.

(** X17: on a chain of aliases that never ends, where every
    declaration reached aliases a custom type again, [RootType()] does
    not return, however many turns its loop is given. *)
Theorem RootType_endless (h : declStore) (decl : loc) :
  (forall d, rtc (aliasStep h) decl d -> exists d', aliasStep h d d') ->
  forall fuel, RootType h fuel decl = OutOfFuel.
Proof.
  intros Hend fuel. revert decl Hend.
  induction fuel as [|fuel IH]; intros decl Hend.
  - destruct (Hend decl) as (next & d & name & pkg & Hd & Ha); [done|].
    by eapply RootType_zero_alias.
  - destruct (Hend decl) as (next & d & name & pkg & Hd & Ha); [done|].
    rewrite (RootType_step _ _ _ _ _ _ _ Hd Ha).
    apply IH. intros d' Hreach. apply Hend.
    eapply rtc_l; [|exact Hreach]. by exists d, name, pkg.
Qed.

(** The steps of the store [type A B; type B A]. *)
Lemma storeAliasCycle_reach (d : loc) :
  rtc (aliasStep storeAliasCycle) 0%nat d -> d = 0%nat \/ d = 1%nat.
Proof.
  intros Hreach. apply rtc_nsteps in Hreach as [n Hn].
  revert d Hn. induction n as [n IH] using lt_wf_ind. intros d Hn.
  destruct n as [|n]; [inversion Hn; auto|].
  apply nsteps_inv_r in Hn as (mid & Hmid & decl & name & pkg & Hd & Ha).
  destruct (IH n ltac:(lia) mid Hmid) as [-> | ->];
    vm_compute in Hd; injection Hd as <-; injection Ha as <-; auto.
Qed.

Lemma RootType_endless_witness :
  RootType storeAliasCycle 1000 0%nat = OutOfFuel.
Proof.
  apply (RootType_endless storeAliasCycle 0%nat).
  intros d [-> | ->]%storeAliasCycle_reach.
  - exists 1%nat, (mkTypeDecl 0 "A" (Some (CustomType "B" "" 1%nat))), "B", "".
    split; reflexivity.
  - exists 0%nat, (mkTypeDecl 0 "B" (Some (CustomType "A" "" 0%nat))), "A", "".
    split; reflexivity.
Defined.

(** X18: in a store where every declaration reached from [decl]
    aliases some type, [RootType()] never panics. *)
Theorem RootType_no_panic (h : declStore) (decl : loc) :
  (forall d, rtc (aliasStep h) decl d ->
     exists dd t, h !! d = Some dd /\ AliasedType dd = Some t) ->
  forall fuel, RootType h fuel decl <> Panics.
Proof.
  intros Hwf fuel. revert decl Hwf.
  induction fuel as [|fuel IH]; intros decl Hwf.
  - destruct (Hwf decl) as (dd & t & Hdd & Hat); [done|].
    destruct (RootType_cases h 0 decl)
      as [[Hn H]|[(d & Hd & Ha & H)|[(d & t' & Hd & Ha & Hk & H)|
          (d & name & pkg & next & Hd & Ha)]]]; try congruence.
    by rewrite (RootType_zero_alias _ _ _ _ _ _ Hd Ha).
  - destruct (Hwf decl) as (dd & t & Hdd & Hat); [done|].
    destruct (RootType_cases h (S fuel) decl)
      as [[Hn H]|[(d & Hd & Ha & H)|[(d & t' & Hd & Ha & Hk & H)|
          (d & name & pkg & next & Hd & Ha)]]]; try congruence.
    rewrite (RootType_step _ _ _ _ _ _ _ Hd Ha).
    apply IH. intros d' Hreach. apply Hwf.
    eapply rtc_l; [|exact Hreach]. by exists d, name, pkg.
Qed.

Lemma RootType_no_panic_witness :
  RootType storeAliasCycle 7 0%nat <> Panics.
Proof.
  apply (RootType_no_panic storeAliasCycle 0%nat).
  intros d [-> | ->]%storeAliasCycle_reach.
  - exists (mkTypeDecl 0 "A" (Some (CustomType "B" "" 1%nat))),
           (CustomType "B" "" 1%nat). split; reflexivity.
  - exists (mkTypeDecl 0 "B" (Some (CustomType "A" "" 0%nat))),
           (CustomType "A" "" 0%nat). split; reflexivity.
Defined.

(** X19: in a store where the declarations reached from [decl] each
    alias some type and none reaches itself, [RootType()] returns: some
    number of turns is enough, and the type returned is not a custom
    type. *)
Theorem RootType_acyclic_returns (h : declStore) (decl : loc) :
  (forall d, rtc (aliasStep h) decl d ->
     exists dd t, h !! d = Some dd /\ AliasedType dd = Some t) ->
  (forall d, rtc (aliasStep h) decl d -> ~ tc (aliasStep h) d d) ->
  exists root turns,
    KindOf root <> KIND_CUSTOM /\
    forall fuel, (turns <= fuel)%nat -> RootType h fuel decl = Returns root.
Proof.
  intros Hwf Hacyc.
  destruct (AliasChain_of_acyclic h decl Hwf Hacyc) as (path & root & Hc).
  exists root, (length path).
  split; [by eapply AliasChain_root_kind|]. by apply RootType_chain.
Qed.

(** The only step of the store [type Celsius int; type Temp Celsius]. *)
Lemma storeTwoAliases_step (d d' : loc) :
  aliasStep storeTwoAliases d d' -> d = 1%nat /\ d' = 0%nat.
Proof.
  intros (decl & name & pkg & Hd & Ha).
  destruct d as [|[|d]].
  - vm_compute in Hd. injection Hd as <-. discriminate Ha.
  - vm_compute in Hd. injection Hd as <-. injection Ha as <-. done.
  - unfold storeTwoAliases in Hd.
    rewrite lookup_insert_ne, lookup_singleton_ne in Hd by lia. done.
Qed.

Lemma storeTwoAliases_tc (d d' : loc) :
  tc (aliasStep storeTwoAliases) d d' -> d = 1%nat /\ d' = 0%nat.
Proof.
  induction 1 as [d d' Hs|d mid d' Hs _ IH].
  - by apply storeTwoAliases_step.
  - apply storeTwoAliases_step in Hs as [_ ->]. by destruct IH.
Qed.

Lemma RootType_acyclic_returns_witness :
  exists root turns,
    KindOf root <> KIND_CUSTOM /\
    forall fuel, (turns <= fuel)%nat ->
      RootType storeTwoAliases fuel 1%nat = Returns root.
Proof.
  apply (RootType_acyclic_returns storeTwoAliases 1%nat).
  - intros d [<-|Htc]%rtc_tc.
    + eexists _, _. split; reflexivity.
    + apply storeTwoAliases_tc in Htc as [_ ->].
      eexists _, _. split; reflexivity.
  - intros d _ Htc. apply storeTwoAliases_tc in Htc. lia.
Defined.

(** *** The builtin declarations *)

Lemma initVarDecls_snoc (names : list string) (name : string) :
  initVarDecls (names ++ [name]) =
  (<[size (fst (initVarDecls names)) := mkTypeDecl 0 name None]>
     (fst (initVarDecls names)),
   <[name := size (fst (initVarDecls names))]> (snd (initVarDecls names))).
Proof. unfold initVarDecls. by rewrite foldl_app. Qed.

(** The store that [initVarDecls] fills has no hole: its addresses are
    the numbers below its size. *)
Lemma initVarDecls_contiguous (names : list string) (p : loc) :
  is_Some (fst (initVarDecls names) !! p) <->
  (p < size (fst (initVarDecls names)))%nat.
Proof.
  revert p. induction names as [|name names IH] using rev_ind; intros p.
  - simpl. rewrite lookup_empty, map_size_empty.
    split; [by intros [? ?]|lia].
  - rewrite initVarDecls_snoc. simpl.
    assert (fst (initVarDecls names) !! size (fst (initVarDecls names)) = None)
      as Hfresh.
    { apply eq_None_not_Some. rewrite IH. lia. }
    rewrite map_size_insert_None by done.
    destruct (decide (size (fst (initVarDecls names)) = p)) as [<-|Hne].
    + rewrite lookup_insert_eq. split; [lia|eauto].
    + rewrite lookup_insert_ne by done. rewrite IH. lia.
Qed.

(** X20: whatever the list of names, [initVarDecls] registers exactly
    those names, each under a declaration of its own that bears the
    name and aliases nothing; no two names share a declaration. *)
Theorem initVarDecls_table (names : list string) :
  (forall name,
     is_Some (snd (initVarDecls names) !! name) <-> name ∈ names) /\
  (forall name p,
     snd (initVarDecls names) !! name = Some p ->
     fst (initVarDecls names) !! p = Some (mkTypeDecl 0 name None)) /\
  (forall n1 n2 p,
     snd (initVarDecls names) !! n1 = Some p ->
     snd (initVarDecls names) !! n2 = Some p -> n1 = n2).
Proof.
  assert ((forall name,
             is_Some (snd (initVarDecls names) !! name) <-> name ∈ names) /\
          (forall name p,
             snd (initVarDecls names) !! name = Some p ->
             fst (initVarDecls names) !! p = Some (mkTypeDecl 0 name None)))
    as [Hdom Hdecl].
  { induction names as [|n names [IHdom IHdecl]] using rev_ind.
    - split.
      + intros name. simpl. rewrite lookup_empty, elem_of_nil.
        split; [by intros [? ?]|done].
      + intros name p. simpl. by rewrite lookup_empty.
    - rewrite initVarDecls_snoc. simpl. split.
      + intros name. rewrite lookup_insert_is_Some, IHdom, elem_of_app,
          list_elem_of_singleton.
        destruct (decide (n = name)); intuition congruence.
      + intros name p.
        destruct (decide (n = name)) as [->|Hne].
        * rewrite lookup_insert_eq. intros [= <-]. by rewrite lookup_insert_eq.
        * rewrite lookup_insert_ne by done. intros Hp.
          pose proof (IHdecl name p Hp) as Hstore.
          rewrite lookup_insert_ne; [done|].
          intros <-.
          assert (is_Some (fst (initVarDecls names)
                             !! size (fst (initVarDecls names)))) as Hs
            by eauto.
          apply initVarDecls_contiguous in Hs. lia. }
  split; [done|]. split; [done|].
  intros n1 n2 p H1%Hdecl H2%Hdecl. congruence.
Qed.

(** The names with a simple type id. *)
Lemma simpleTypeStrToID_names (name : string) :
  is_Some (simpleTypeStrToID !! name) <-> name ∈ ["int"; "string"; "bool"].
Proof.
  rewrite <- elem_of_dom.
  replace (dom simpleTypeStrToID)
    with (list_to_set ["int"; "string"; "bool"] : gset string).
  - apply elem_of_list_to_set.
  - apply (bool_decide_unpack _). vm_compute. exact I.
Qed.

(** X21: a builtin type other than [int], [string] and [bool] has no
    simple type id: [Type()] of its declaration is the simple type of
    id 0, the same for all of them, and it renders as the empty string;
    the types of [int], [string] and [bool] render as their names. *)
Theorem builtin_rendering (name : string) (p : loc) :
  GetBuiltinType name = Some p ->
  exists id,
    TypeDecl_Type builtinStore p = Some (SimpleType id) /\
    (name ∈ ["int"; "string"; "bool"] -> SimpleType_String id = name) /\
    (name ∉ ["int"; "string"; "bool"] ->
       id = 0%Z /\ SimpleType_String id = "").
Proof.
  intros (d & Hd & <- & Ha)%GetBuiltinType_decl.
  exists (simpleTypeID_of (td_name d)).
  split; [|split].
  - unfold TypeDecl_Type. rewrite Hd. simpl. by rewrite Ha.
  - intros Hin. repeat (apply elem_of_cons in Hin as [->|Hin]); try done.
    by apply elem_of_nil in Hin.
  - intros Hnot. unfold simpleTypeID_of.
    destruct (simpleTypeStrToID !! td_name d) as [id|] eqn:Hid; [|done].
    destruct Hnot. apply simpleTypeStrToID_names. eauto.
Qed.

Lemma builtin_rendering_witness :
  exists id,
    TypeDecl_Type builtinStore 1%nat = Some (SimpleType id) /\
    ("byte" ∈ ["int"; "string"; "bool"] -> SimpleType_String id = "byte") /\
    ("byte" ∉ ["int"; "string"; "bool"] ->
       id = 0%Z /\ SimpleType_String id = "").
Proof. apply (builtin_rendering "byte" 1%nat). reflexivity. Defined.

(** *** The table of simple type ids *)

Lemma invertEntries_snoc (entries : list (SimpleTypeID * string))
    (e : SimpleTypeID * string) :
  invertEntries (entries ++ [e]) = <[snd e := fst e]> (invertEntries entries).
Proof. unfold invertEntries. by rewrite foldl_app. Qed.

Lemma invertEntries_lookup (entries : list (SimpleTypeID * string)) :
  NoDup (snd <$> entries) ->
  forall v k, invertEntries entries !! v = Some k <-> (k, v) ∈ entries.
Proof.
  induction entries as [|[k0 v0] entries IH] using rev_ind; intros Hnd v k.
  - unfold invertEntries. simpl. rewrite lookup_empty, elem_of_nil. done.
  - rewrite fmap_app in Hnd. apply NoDup_app in Hnd as (Hnd & Hfresh & _).
    rewrite invertEntries_snoc, elem_of_app, list_elem_of_singleton. simpl.
    destruct (decide (v0 = v)) as [->|Hne].
    + rewrite lookup_insert_eq. split.
      * intros [= ->]. by right.
      * intros [Hin|[= ->]]; [|done].
        destruct (Hfresh v).
        -- apply list_elem_of_fmap. by exists (k, v).
        -- simpl. by left.
    + rewrite lookup_insert_ne by done. rewrite (IH Hnd). split.
      * by left.
      * intros [Hin|[= ? ?]]; [done|congruence].
Qed.

(** X22: in whatever order the loop of [initSimpleTypeIDs] meets the
    entries of a table whose names are pairwise distinct, the table it
    builds is the inverse: a name maps to an id exactly when the id
    maps to the name. *)
Theorem invertEntries_inverse (table : gmap SimpleTypeID string)
    (entries : list (SimpleTypeID * string)) :
  entries ≡ₚ map_to_list table ->
  (forall k1 k2 v, table !! k1 = Some v -> table !! k2 = Some v -> k1 = k2) ->
  forall v k, invertEntries entries !! v = Some k <-> table !! k = Some v.
Proof.
  intros Hperm Hinj v k.
  rewrite invertEntries_lookup.
  - by rewrite Hperm, elem_of_map_to_list.
  - rewrite Hperm. apply NoDup_fmap_2_strong; [|apply NoDup_map_to_list].
    intros [k1 v1] [k2 v2] H1%elem_of_map_to_list H2%elem_of_map_to_list Heq.
    simpl in Heq. subst. f_equal. by eapply Hinj.
Qed.

Lemma simpleTypeAsStr_entries :
  map_to_list simpleTypeAsStr ≡ₚ [(1%Z, "int"); (2%Z, "string"); (3%Z, "bool")].
Proof.
  apply NoDup_Permutation.
  - apply NoDup_map_to_list.
  - apply (bool_decide_unpack _). vm_compute. exact I.
  - intros [k v]. rewrite elem_of_map_to_list.
    unfold simpleTypeAsStr.
    rewrite !elem_of_cons, elem_of_nil.
    rewrite !lookup_insert_Some, lookup_singleton_Some.
    unfold SIMPLE_TYPE_INT, SIMPLE_TYPE_STRING, SIMPLE_TYPE_BOOL.
    intuition (try congruence; try lia).
Qed.

Lemma simpleTypeAsStr_injective (k1 k2 : SimpleTypeID) (v : string) :
  simpleTypeAsStr !! k1 = Some v -> simpleTypeAsStr !! k2 = Some v -> k1 = k2.
Proof.
  rewrite <- !elem_of_map_to_list, !simpleTypeAsStr_entries.
  intros H1 H2.
  assert (Forall (fun e1 : SimpleTypeID * string =>
            Forall (fun e2 : SimpleTypeID * string =>
                      snd e1 = snd e2 -> fst e1 = fst e2)
                   [(1%Z, "int"); (2%Z, "string"); (3%Z, "bool")])
            [(1%Z, "int"); (2%Z, "string"); (3%Z, "bool")]) as Hall.
  { apply (bool_decide_unpack _). vm_compute. exact I. }
  rewrite Forall_forall in Hall. specialize (Hall _ H1).
  rewrite Forall_forall in Hall. by apply (Hall _ H2).
Qed.

Lemma invertEntries_inverse_witness :
  invertEntries [(3%Z, "bool"); (1%Z, "int"); (2%Z, "string")] !! "string"
    = Some 2%Z
  <-> simpleTypeAsStr !! 2%Z = Some "string".
Proof.
  apply (invertEntries_inverse simpleTypeAsStr).
  - rewrite simpleTypeAsStr_entries.
    apply (bool_decide_unpack _). vm_compute. exact I.
  - apply simpleTypeAsStr_injective.
Defined.

(** The table that [init] leaves is the one the loop builds. *)
Lemma simpleTypeStrToID_invertEntries :
  simpleTypeStrToID
  = invertEntries [(3%Z, "bool"); (1%Z, "int"); (2%Z, "string")].
Proof. vm_compute. reflexivity. Qed.

(** *** Labels *)

(** X23: a label once added is never overwritten: after a successful
    [AddLabel], adding any label of the same name returns an error and
    leaves the block, with the first label, as it is. *)
Theorem AddLabel_no_overwrite (cb cb' : CodeBlock) (l l' : LabelStmt) :
  AddLabel cb l = Returns (cb', None) ->
  lbl_name l' = lbl_name l ->
  labelsOf cb' !! lbl_name l = Some l /\
  exists err, AddLabel cb' l' = Returns (cb', Some err).
Proof.
  unfold AddLabel. intros Hadd Hname.
  destruct (labelsOf cb !! lbl_name l); [done|].
  destruct (Labels cb) as [labels|]; [|done].
  injection Hadd as <-. unfold labelsOf. simpl.
  rewrite Hname, lookup_insert_eq. eauto.
Qed.

Lemma AddLabel_no_overwrite_witness :
  labelsOf blockWithLoop !! "loop" = Some (mkLabelStmt 3 "loop" None) /\
  exists err,
    AddLabel blockWithLoop (mkLabelStmt 8 "loop" (Some 2))
      = Returns (blockWithLoop, Some err).
Proof.
  apply (AddLabel_no_overwrite (mkCodeBlock [] (Some ∅)) blockWithLoop
           (mkLabelStmt 3 "loop" None) (mkLabelStmt 8 "loop" (Some 2)));
    reflexivity.
Defined.

(** X24: labels of different names can be added in either order: the
    block that results is the same. *)
Theorem AddLabel_commute (cb cb1 cb12 : CodeBlock) (l1 l2 : LabelStmt) :
  lbl_name l1 <> lbl_name l2 ->
  AddLabel cb l1 = Returns (cb1, None) ->
  AddLabel cb1 l2 = Returns (cb12, None) ->
  exists cb2,
    AddLabel cb l2 = Returns (cb2, None) /\
    AddLabel cb2 l1 = Returns (cb12, None).
Proof.
  unfold AddLabel. intros Hne H1 H2.
  destruct (labelsOf cb !! lbl_name l1) eqn:Hl1; [done|].
  unfold labelsOf in *.
  destruct (Labels cb) as [labels|] eqn:Hlabels; [|done].
  injection H1 as <-. simpl in *.
  rewrite lookup_insert_ne in H2 by done.
  destruct (labels !! lbl_name l2) eqn:Hl2; [done|].
  injection H2 as <-.
  eexists. split; [done|]. simpl.
  rewrite lookup_insert_ne by done. rewrite Hl1.
  by rewrite insert_insert_ne.
Qed.

Lemma AddLabel_commute_witness :
  exists cb2,
    AddLabel (mkCodeBlock [] (Some ∅)) (mkLabelStmt 5 "exit" None)
      = Returns (cb2, None) /\
    AddLabel cb2 (mkLabelStmt 3 "loop" None)
      = Returns (mkCodeBlock []
                   (Some (<["exit" := mkLabelStmt 5 "exit" None]>
                            {[ "loop" := mkLabelStmt 3 "loop" None ]})),
                 None).
Proof.
  apply (AddLabel_commute (mkCodeBlock [] (Some ∅)) blockWithLoop).
  - discriminate.
  - reflexivity.
  - reflexivity.
Defined.

(** X25: [AddLabel] returns exactly on the blocks whose label map is
    allocated; on a block whose map is nil it panics, whatever the
    label. *)
Theorem AddLabel_returns_iff (cb : CodeBlock) (l : LabelStmt) :
  ((exists r, AddLabel cb l = Returns r) <-> is_Some (Labels cb)) /\
  (Labels cb = None -> AddLabel cb l = Panics).
Proof.
  split; [split|].
  - intros [r Hr]. unfold AddLabel, labelsOf in Hr.
    destruct (Labels cb); [eauto|]. simpl in Hr.
    by rewrite lookup_empty in Hr.
  - apply AddLabel_returns.
  - intros Hnil. unfold AddLabel, labelsOf. rewrite Hnil. simpl.
    by rewrite lookup_empty.
Qed.

Lemma AddLabel_returns_iff_witness :
  AddLabel (mkCodeBlock [] None) (mkLabelStmt 3 "loop" None) = Panics.
Proof.
  apply (proj2 (AddLabel_returns_iff (mkCodeBlock [] None) _)). reflexivity.
Defined.

(** *** Struct members by position *)

(** X26: for a struct whose [Keys] list the keys of [Members] in
    declaration order, [GetTypeN(n)] returns the type of the n-th
    member; an index below zero or not below the number of keys
    panics, whatever the members. *)
Theorem GetTypeN_in_order (members : list (string * Type_)) :
  (NoDup (fst <$> members) ->
   forall (i : nat) (m : string * Type_),
     members !! i = Some m ->
     GetTypeN members (fst <$> members) (Z.of_nat i)
       = Returns (Some (snd m))) /\
  (forall (keys : list string) (n : Z),
     (n < 0 \/ Z.of_nat (length keys) <= n)%Z ->
     GetTypeN members keys n = Panics).
Proof.
  split.
  - intros Hnd i [k t] Hi. unfold GetTypeN.
    rewrite bool_decide_eq_true_2 by lia.
    rewrite Nat2Z.id, list_lookup_fmap, Hi. simpl. do 2 f_equal.
    apply elem_of_list_to_map_1; [done|].
    by eapply list_elem_of_lookup_2.
  - intros keys n Hn. unfold GetTypeN.
    case_bool_decide; [|done].
    rewrite lookup_ge_None_2; [done|]. lia.
Qed.

Lemma GetTypeN_in_order_witness :
  GetTypeN [("x", SimpleType SIMPLE_TYPE_INT); ("y", UnknownType)]
           ["x"; "y"] 1
    = Returns (Some UnknownType) /\
  GetTypeN [("x", SimpleType SIMPLE_TYPE_INT); ("y", UnknownType)]
           ["x"; "y"] 2
    = Panics.
Proof.
  split.
  - apply (proj1 (GetTypeN_in_order
                    [("x", SimpleType SIMPLE_TYPE_INT); ("y", UnknownType)])
             ltac:(apply (bool_decide_unpack _); vm_compute; exact I)
             1%nat ("y", UnknownType)).
    reflexivity.
  - apply (proj2 (GetTypeN_in_order
                    [("x", SimpleType SIMPLE_TYPE_INT); ("y", UnknownType)])).
    right. simpl. lia.
Defined.

End AstMore.

(** ** More about the ordering of top-level statements *)

Module PkgMore.
Import Pkg Samples PkgFacts.

Local Open Scope string_scope.
Local Open Scope list_scope.
Local Open Scope nat_scope.

(** X27: [topoSort] returns an ordering exactly when the edges of the
    statements are acyclic. *)
Theorem topoSort_succeeds_iff (stmts : list TopLevelStmt) :
  (exists out, topoSort stmts = inr out) <-> Acyclic stmts.
Proof.
  split.
  - intros [out [Hperm Hfirst]%topoSort_inr].
    by eapply DependenciesFirst_Acyclic.
  - intros Hacyc. by apply (emit_total stmts (length stmts) Hacyc stmts []).
Qed.

Lemma selectAvailable_head (s : TopLevelStmt) (l : list TopLevelStmt) :
  available (s :: l) s = true -> selectAvailable (s :: l) = Some (s, l).
Proof.
  intros H. unfold selectAvailable. cbn [selectFrom]. by rewrite H.
Qed.

Lemma emit_Emitted (remaining : list TopLevelStmt) :
  Emitted remaining ->
  forall output,
    emit (length remaining) remaining output = inr (output ++ remaining).
Proof.
  induction 1 as [|s l Hs _ IH]; intros output; cbn [length emit].
  - by rewrite app_nil_r.
  - rewrite selectAvailable_head by (by apply available_true).
    rewrite IH. by rewrite <- List.app_assoc.
Qed.

(** X28: the sort is stable: statements that already come after all
    the statements they depend on are returned in the order given. *)
Theorem topoSort_stable (stmts : list TopLevelStmt) :
  Emitted stmts -> topoSort stmts = inr stmts.
Proof. intros H. exact (emit_Emitted stmts H []). Qed.

Lemma topoSort_stable_witness : topoSort case1 = inr case1.
Proof.
  apply (topoSort_stable case1).
  repeat (constructor;
          [apply Forall_forall; apply (bool_decide_unpack _);
           vm_compute; exact I|]).
  constructor.
Defined.

End PkgMore.
